(** * clogs: scoped, levelled logging with a margin-aware output transformer

    A shallow embedding of [logger.go] (package [clogs]).  Go strings and
    byte slices are lists of bytes, Go's [int] is a 64-bit two's-complement
    integer carried in [Z] with its wrap-around written out, [uint16] is a
    [Z] reduced modulo 2^16.  Code that can panic (slice bounds,
    [strings.Repeat]) and code that reads the shared terminal size or writes
    to standard output runs in a small state-and-failure monad over a
    [world]: the number of [Load]s performed so far on the size event source
    and the trace of writes to [os.Stdout]. *)

From Stdlib Require Import String Strings.Byte DecimalString.
From Stdlib Require Import ZArith List Lia Bool.
Import ListNotations.
Local Open Scope Z_scope.

(** ** Bytes and literals *)

Definition bytes := list byte.

Definition lit (s : string) : bytes := list_byte_of_string s.

Definition ESC : byte := "027"%byte.
Definition CR : byte := "013"%byte.
Definition LF : byte := "010"%byte.

(** The string literals of the source. *)
Definition resetCode : bytes := Eval cbv in ESC :: lit "[0m".
Definition separator : bytes := Eval cbv in lit "| ".
Definition ellipsis : bytes := Eval cbv in lit "…".
Definition saveCursor : bytes := Eval cbv in ESC :: lit "[s".
Definition restoreCursor : bytes := Eval cbv in ESC :: lit "[u".
Definition toColumnOne : bytes := Eval cbv in ESC :: lit "[1G".
Definition csiIntro : bytes := Eval cbv in ESC :: lit "[".

(** ** Go integers *)

Definition MaxInt : Z := 2 ^ 63 - 1.
Definition MinInt : Z := - 2 ^ 63.

(** Two's-complement reduction of a mathematical integer to Go's [int]. *)
Definition wrapInt (z : Z) : Z := (z + 2 ^ 63) mod 2 ^ 64 - 2 ^ 63.

Definition intAdd (a b : Z) : Z := wrapInt (a + b).

(** Conversion [uint16(x)] of an [int]. *)
Definition uint16 (z : Z) : Z := z mod 65536.

(** [fmt]'s [%d] verb on an [int]: optional minus sign, decimal digits. *)
Definition fmtInt (z : Z) : bytes :=
  list_byte_of_string (NilZero.string_of_int (Z.to_int z)).

(** ** Log levels *)

Inductive LogLevel : Set :=
| LogLevelTrace
| LogLevelDebug
| LogLevelInfo
| LogLevelNotice
| LogLevelWarn
| LogLevelError.

(** The [iota] numbering of the constants. *)
Definition levelNum (l : LogLevel) : Z :=
  match l with
  | LogLevelTrace => 0
  | LogLevelDebug => 1
  | LogLevelInfo => 2
  | LogLevelNotice => 3
  | LogLevelWarn => 4
  | LogLevelError => 5
  end.

(** [a > b] on levels. *)
Definition levelGt (a b : LogLevel) : bool := levelNum b <? levelNum a.

(** ** Terminal size and loggers *)

Record terminalSize : Set := mkSize { margin : Z; width : Z; height : Z }.

(** A [Logger] is its threshold and its scope; the [size] field of the source
    is the shared event source, which the [world] below stands for. *)
Record Logger : Set := mkLogger { level : LogLevel; scope : bytes }.

(** [Logger.Scope]: a child logger with another scope and the same threshold. *)
Definition Scope (l : Logger) (s : bytes) : Logger :=
  {| level := level l; scope := s |}.

(** ** Size computation of [syncTermSize] *)

(** The value built from a successful [term.GetSize]: Go's [/] on [int]
    truncates towards zero, and the results are converted to [uint16]. *)
Definition sizeOf (w h : Z) : terminalSize :=
  {| margin := uint16 (Z.max 16 (Z.quot w 5));
     width := uint16 w;
     height := uint16 h |}.

Definition defaultSize : terminalSize :=
  {| margin := 16; width := 80; height := 25 |}.

(** The initial [Store]: [r] is the result of [term.GetSize], [None] when it
    returned an error. *)
Definition initialSize (r : option (Z * Z)) : terminalSize :=
  match r with
  | Some (w, h) => sizeOf w h
  | None => defaultSize
  end.

(** The watcher goroutine: one [term.GetSize] per SIGWINCH, a [Store] only
    when it succeeded. *)
Fixpoint watcherStores (signals : list (option (Z * Z))) : list terminalSize :=
  match signals with
  | [] => []
  | Some (w, h) :: rest => sizeOf w h :: watcherStores rest
  | None :: rest => watcherStores rest
  end.

(** Every value [syncTermSize] stores, in order. *)
Definition syncTermSize (init : option (Z * Z))
    (signals : list (option (Z * Z))) : list terminalSize :=
  initialSize init :: watcherStores signals.

(** ** The world: size loads and standard output *)

(** A write to [os.Stdout], tagged with the call that made it: a write of
    [getPrefix]'s result, a write of data bytes, or the [fmt.Printf] of
    [logf]. *)
Inductive event : Set :=
| WritePrefix (p : bytes)
| WriteData (d : bytes)
| Printf (d : bytes).

Definition eventBytes (e : event) : bytes :=
  match e with
  | WritePrefix p => p
  | WriteData d => d
  | Printf d => d
  end.

(** The bytes that reached the terminal. *)
Definition render (tr : list event) : bytes := flat_map eventBytes tr.

Definition isPrefixWrite (e : event) : bool :=
  match e with WritePrefix _ => true | _ => false end.

Definition isPrintf (e : event) : bool :=
  match e with Printf _ => true | _ => false end.

(** The data bytes alone, without the prefixes drawn around them. *)
Definition dataBytes (tr : list event) : bytes :=
  flat_map (fun e => match e with WriteData d => d | _ => [] end) tr.

Record world : Set := mkWorld { loads : nat; stdout : list event }.

(** Computations that read and change the world and may panic. *)
Definition M (A : Type) : Type := world -> option (A * world).

Definition ret {A : Type} (a : A) : M A := fun w => Some (a, w).

Definition bind {A B : Type} (m : M A) (f : A -> M B) : M B :=
  fun w => match m w with
           | Some (a, w') => f a w'
           | None => None
           end.

Definition panic {A : Type} : M A := fun _ => None.

Notation "x <- c ;; k" := (bind c (fun x => k))
  (at level 61, c at next level, right associativity).
Notation "c ;;; k" := (bind c (fun _ => k))
  (at level 61, right associativity).

(** A write to [os.Stdout]. *)
Definition write (e : event) : M unit :=
  fun w => Some (tt, {| loads := loads w; stdout := stdout w ++ [e] |}).

(** ** Helpers from the Go library *)

(** [s[lo:]]: panics when [lo] is outside [0 .. len(s)]. *)
Definition sliceFrom (s : bytes) (lo : Z) : M bytes :=
  if (0 <=? lo) && (lo <=? Z.of_nat (length s))
  then ret (skipn (Z.to_nat lo) s)
  else panic.

(** [strings.Repeat]: panics on a negative count. *)
Definition Repeat (s : bytes) (count : Z) : M bytes :=
  if count <? 0 then panic else ret (concat (repeat s (Z.to_nat count))).

(** [strings.ReplaceAll] with a one-byte pattern. *)
Definition ReplaceAll (s : bytes) (old : byte) (new : bytes) : bytes :=
  flat_map (fun b => if Byte.eqb b old then new else [b]) s.

(** ** Segments of the escape reader *)

Module csi.

(** Modelled from the spec: the package [csi] (its reader, [Text], [CSI],
    [IntParams] and [String]) is not part of the sources at hand.  A
    control segment carries its final byte, its integer parameters and
    its original bytes; [IntParams] is what the method of that name
    returns ([None] for a non-nil error) and [String] the original bytes
    of the sequence. *)
Record CSI : Set := mkCSI {
  Final : byte;
  IntParams : option (list Z);
  String : bytes
}.

(** A segment is a run of text bytes or a control sequence. *)
Inductive Segment : Set :=
| Text (t : bytes)
| Control (cs : CSI).

(** The errors of [Reader.Read], as [writerScanner] tells them apart; of any
    other error, [msg] is the text the verb [%s] prints. *)
Inductive ReadError : Set :=
| EOF
| ErrClosedPipe
| OtherError (msg : bytes).

(** One call of [Reader.Read]. *)
Inductive ReadResult : Set :=
| Seg (s : Segment)
| Err (e : ReadError).

End csi.

(** The state [writerScanner] keeps across iterations. *)
Record scanState : Set := mkScan { drawPrefix : bool; newline : bytes }.

Definition initialScan : scanState := {| drawPrefix := true; newline := [] |}.

(** How a run of [writerScanner] over the reads known so far stands: it
    returned, or it waits in [esc.Read] with the given state. *)
Inductive outcome : Set :=
| Exited
| Reading (st : scanState).

Definition isNewline (b : byte) : bool := Byte.eqb b CR || Byte.eqb b LF.

(** [ansiTable], filled at start-up from [isatty.IsTerminal(os.Stdout.Fd())],
    here [tty]; a lookup in a Go map yields the empty string for a missing
    key. *)
Definition ansiTable (tty : bool) (lv : LogLevel) : bytes :=
  if negb tty then []
  else match lv with
       | LogLevelTrace => ESC :: lit "[90m"
       | LogLevelDebug => ESC :: lit "[34m"
       | LogLevelInfo => []
       | LogLevelNotice => ESC :: lit "[32m"
       | LogLevelWarn => ESC :: lit "[33m"
       | LogLevelError => ESC :: lit "[31m"
       end.

(** ** Formatting *)

(** An operand of a levelled print function: a Go string, an error, whose
    [text] is what the verb [%s] prints for it, or any other value. *)
Inductive arg : Set :=
| ArgString (s : bytes)
| ArgError (text : bytes)
| ArgOther (id : nat).

(** What the verb [%s] prints, for the operands the model knows. *)
Definition argText (a : arg) : option bytes :=
  match a with
  | ArgString s => Some s
  | ArgError text => Some text
  | ArgOther _ => None
  end.

(** A byte [fmt] takes for the verb as it stands after a percent sign: an
    ASCII byte that is no flag, no argument index, no width, no precision
    and no percent sign. *)
Definition plainVerb (c : byte) : bool :=
  let n := Byte.to_N c in
  (n <? 128)%N
  && negb (Byte.eqb c "#"%byte) && negb (Byte.eqb c "+"%byte)
  && negb (Byte.eqb c "-"%byte) && negb (Byte.eqb c " "%byte)
  && negb (Byte.eqb c "["%byte) && negb (Byte.eqb c "*"%byte)
  && negb (Byte.eqb c "."%byte) && negb (Byte.eqb c "%"%byte)
  && negb ((48 <=? n) && (n <=? 57))%N.

(** The operands [fmt] lists as extra, for Go strings: [string=] and the
    string, separated by a comma and a space. *)
Fixpoint extraOperands (args : list arg) : option bytes :=
  match args with
  | [] => Some []
  | a :: rest =>
      match a with
      | ArgString s =>
          match rest with
          | [] => Some (lit "string=" ++ s)
          | _ :: _ =>
              match extraOperands rest with
              | Some more => Some (lit "string=" ++ s ++ lit ", " ++ more)
              | None => None
              end
          end
      | _ => None
      end
  end.

(** What [fmt] appends once the format is used up: nothing when no operand
    is left, the list of the extra ones otherwise. *)
Definition extraNote (args : list arg) : option bytes :=
  match args with
  | [] => Some []
  | _ :: _ =>
      match extraOperands args with
      | Some listed => Some (lit "%!(EXTRA " ++ listed ++ lit ")")
      | None => None
      end
  end.

(** [fmt.Sprintf] on the formats the model follows byte by byte: text is
    copied; [%%] is a percent sign; [%s] prints the next operand, a string
    or an error; a plain verb with no operand left prints [%!], the verb and
    [(MISSING)]; a percent sign that ends the format prints [%!(NOVERB)];
    operands left over are listed after the output.  [None] for any other
    format (flags, widths, other verbs with an operand, other operands). *)
Fixpoint knownFormat (format : bytes) (args : list arg) : option bytes :=
  match format with
  | [] => extraNote args
  | b :: rest =>
      if Byte.eqb b "%"%byte then
        match rest with
        | [] => option_map (app (lit "%!(NOVERB)")) (extraNote args)
        | v :: rest' =>
            if Byte.eqb v "%"%byte
            then option_map (cons "%"%byte) (knownFormat rest' args)
            else
              match args with
              | [] =>
                  if plainVerb v
                  then option_map (app (lit "%!" ++ [v] ++ lit "(MISSING)"))
                         (knownFormat rest' [])
                  else None
              | a :: args' =>
                  if Byte.eqb v "s"%byte
                  then match argText a with
                       | Some text =>
                           option_map (app text) (knownFormat rest' args')
                       | None => None
                       end
                  else None
              end
        end
      else option_map (cons b) (knownFormat rest args)
  end.

(** The message of a format made of text, [%%] and [%s] verbs, each [%s]
    matched by a string or an error and no operand left over; [None] for
    any other format. *)
Fixpoint expand (format : bytes) (args : list arg) : option bytes :=
  match format with
  | [] => match args with [] => Some [] | _ :: _ => None end
  | b :: rest =>
      if Byte.eqb b "%"%byte then
        match rest with
        | [] => None
        | v :: rest' =>
            if Byte.eqb v "%"%byte
            then option_map (cons "%"%byte) (expand rest' args)
            else if Byte.eqb v "s"%byte
            then match args with
                 | a :: args' =>
                     match argText a with
                     | Some text => option_map (app text) (expand rest' args')
                     | None => None
                     end
                 | [] => None
                 end
            else None
        end
      else option_map (cons b) (expand rest args)
  end.

(** What the transformer takes from its surroundings. *)
Record env : Type := mkEnv {
  (** The value the [t]-th [Load] of the size event source returns: the
      resize watcher stores concurrently, so successive loads may differ. *)
  sizeAt : nat -> terminalSize;
  (** The scope colouring function, defined elsewhere in the package. *)
  targetColour : bytes -> bytes;
  (** [isatty.IsTerminal(os.Stdout.Fd())], read once at start-up. *)
  isTerminal : bool;
  (** [fmt.Sprintf], for the formats [knownFormat] leaves to the library. *)
  fmtSprintf : bytes -> list arg -> bytes
}.

Section Transformer.

Variable E : env.

(** [l.size.Load()]. *)
Definition Load : M terminalSize :=
  fun w => Some (sizeAt E (loads w),
                 {| loads := S (loads w); stdout := stdout w |}).

Definition getScope (l : Logger) : M bytes :=
  size <- Load ;;
  let margin := margin size in
  let len := Z.of_nat (length (scope l)) in
  sc <- (if margin <? len
         then tl <- sliceFrom (scope l) (len - margin + 1) ;;
              ret (ellipsis ++ tl)
         else pad <- Repeat [" "%byte] (margin - len) ;;
              ret (scope l ++ pad)) ;;
  ret (ReplaceAll sc "%"%byte ["%"%byte; "%"%byte]).

Definition getPrefix (l : Logger) (lv : LogLevel) : M bytes :=
  if levelGt (level l) lv then ret []
  else
    let prefix := ansiTable (isTerminal E) lv in
    sc <- getScope l ;;
    match sc with
    | [] => ret prefix
    | _ :: _ =>
        ret (targetColour E sc ++ sc ++ resetCode ++ separator ++ prefix)
    end.

Definition writePrefix (l : Logger) (lv : LogLevel) : M unit :=
  if levelGt (level l) lv then ret tt
  else p <- getPrefix l lv ;; write (WritePrefix p).

(** [fmt.Sprintf]: followed byte by byte where [knownFormat] does, the
    library's own result elsewhere. *)
Definition Sprintf (format : bytes) (args : list arg) : bytes :=
  match knownFormat format args with
  | Some out => out
  | None => fmtSprintf E format args
  end.

(** [logf]: the reset code and the line feed are appended to the format,
    and the whole is formatted with the operands. *)
Definition logf (l : Logger) (lv : LogLevel) (format : bytes)
    (args : list arg) : M unit :=
  if levelGt (level l) lv then ret tt
  else writePrefix l lv ;;;
       write (Printf (Sprintf (format ++ resetCode ++ [LF]) args)).

Definition Warnf (l : Logger) (format : bytes) (args : list arg) : M unit :=
  logf l LogLevelWarn format args.

(** The interception of control sequences: the text a segment is turned
    into before it is written. *)
Definition intercept (l : Logger) (lv : LogLevel) (seg : csi.Segment)
  : M bytes :=
  match seg with
  | csi.Text t => ret t
  | csi.Control cs =>
      match csi.IntParams cs with
      | Some [p] =>
          if Byte.eqb (csi.Final cs) "G"%byte then
            size <- Load ;;
            let col := intAdd (intAdd p (margin size)) 2 in
            ret (csiIntro ++ fmtInt col ++ ["G"%byte])
          else if Byte.eqb (csi.Final cs) "K"%byte then
            if (p =? 1) || (p =? 2) then
              pre <- getPrefix l lv ;;
              ret (saveCursor ++ csi.String cs ++ toColumnOne
                     ++ pre ++ restoreCursor)
            else ret (csi.String cs)
          else ret (csi.String cs)
      | _ => ret (csi.String cs)
      end
  end.

(** The inner loop over the buffered line breaks: each is written,
    followed by a prefix. *)
Fixpoint flushNewlines (l : Logger) (lv : LogLevel) (nls : bytes) : M unit :=
  match nls with
  | [] => ret tt
  | nl :: rest =>
      write (WriteData [nl]) ;;;
      (p <- getPrefix l lv ;;
       write (WritePrefix p) ;;;
       flushNewlines l lv rest)
  end.

(** One iteration of the loop over the bytes of a text segment. *)
Definition emitByte (l : Logger) (lv : LogLevel) (st : scanState) (b : byte)
  : M scanState :=
  if isNewline b
  then ret {| drawPrefix := drawPrefix st; newline := newline st ++ [b] |}
  else
    (if drawPrefix st
     then p <- getPrefix l lv ;; write (WritePrefix p)
     else ret tt) ;;;
    (flushNewlines l lv (newline st) ;;;
     (write (WriteData [b]) ;;;
      ret {| drawPrefix := false; newline := [] |})).

Fixpoint emitText (l : Logger) (lv : LogLevel) (t : bytes) (st : scanState)
  : M scanState :=
  match t with
  | [] => ret st
  | b :: rest => st' <- emitByte l lv st b ;; emitText l lv rest st'
  end.

(** The body of the loop of [writerScanner] for a segment read without
    error. *)
Definition processSegment (l : Logger) (lv : LogLevel) (st : scanState)
    (seg : csi.Segment) : M scanState :=
  t <- intercept l lv seg ;; emitText l lv t st.

(** The exit of [writerScanner] on a read error. *)
Definition finish (l : Logger) (st : scanState) (e : csi.ReadError) : M unit :=
  match e with
  | csi.EOF | csi.ErrClosedPipe => write (WriteData (newline st))
  | csi.OtherError msg =>
      write (WriteData (newline st)) ;;;
      Warnf l (lit "error reading CSI sequence: %s") [ArgError msg]
  end.

(** [writerScanner] over the results of the successive [esc.Read] calls. *)
Fixpoint scanFrom (l : Logger) (lv : LogLevel) (st : scanState)
    (reads : list csi.ReadResult) : M outcome :=
  match reads with
  | [] => ret (Reading st)
  | csi.Err e :: _ => finish l st e ;;; ret Exited
  | csi.Seg seg :: rest =>
      st' <- processSegment l lv st seg ;; scanFrom l lv st' rest
  end.

Definition writerScanner (l : Logger) (lv : LogLevel)
    (reads : list csi.ReadResult) : M outcome :=
  scanFrom l lv initialScan reads.

End Transformer.

Definition emptyWorld : world := {| loads := 0; stdout := [] |}.

(** ** Shapes of text and of traces *)

Definition visible (b : byte) : bool := negb (isNewline b).

Definition hasVisible (t : bytes) : bool := existsb visible t.

(** The line-break bytes after the last visible byte of a text. *)
Fixpoint trailingBreaks (t : bytes) : bytes :=
  match t with
  | [] => []
  | b :: r =>
      if hasVisible r then trailingBreaks r
      else if isNewline b then b :: r else r
  end.

(** A text up to and including its last visible byte. *)
Fixpoint upToLastVisible (t : bytes) : bytes :=
  match t with
  | [] => []
  | b :: r =>
      if hasVisible r then b :: upToLastVisible r
      else if isNewline b then [] else [b]
  end.

(** A trace with the contents of its prefixes forgotten. *)
Definition erase (e : event) : event :=
  match e with
  | WritePrefix _ => WritePrefix []
  | _ => e
  end.

Definition shape (tr : list event) : list event := map erase tr.

(** A line break on the terminal: the byte, then a prefix. *)
Definition breakShape (b : byte) : list event :=
  [WriteData [b]; WritePrefix []].

Definition byteShape (b : byte) : list event :=
  if isNewline b then breakShape b else [WriteData [b]].

Definition countPrefixes (tr : list event) : nat :=
  length (filter isPrefixWrite tr).

Definition countBreaks (t : bytes) : nat := length (filter isNewline t).

(** Every prefix written in a trace satisfies [Q]. *)
Definition prefixesSatisfy (Q : bytes -> Prop) (tr : list event) : Prop :=
  Forall (fun e => match e with WritePrefix p => Q p | _ => True end) tr.

(** Each byte written by a call of its own, as the text loop does. *)
Definition bytewise (t : bytes) : list event := map (fun b => WriteData [b]) t.

Definition tick (w : world) : world :=
  {| loads := S (loads w); stdout := stdout w |}.

(** The label before the percent signs are doubled. *)
Definition rawLabel (m : Z) (s : bytes) : bytes :=
  if m <? Z.of_nat (length s)
  then ellipsis ++ skipn (Z.to_nat (Z.of_nat (length s) - m + 1)) s
  else s ++ repeat " "%byte (Z.to_nat (m - Z.of_nat (length s))).

(** The width a [term.GetSize] result reports is one a [uint16] terminal
    size can hold. *)
Definition reportable (r : option (Z * Z)) : Prop :=
  match r with
  | Some (w, _) => 0 <= w < 65536
  | None => True
  end.

(** What every stored size satisfies. *)
Definition storedOK (s : terminalSize) : Prop :=
  margin s = Z.max 16 (width s / 5) /\
  16 <= margin s /\
  (margin s < width s <-> 17 <= width s).

(** A byte that continues a UTF-8 sequence takes no column of its own. *)
Definition isContinuation (b : byte) : bool :=
  let n := Byte.to_N b in ((128 <=? n) && (n <? 192))%N.

(** Columns a string takes on the terminal: one per character. *)
Definition columns (s : bytes) : nat :=
  length (filter (fun b => negb (isContinuation b)) s).

(** A printable ASCII byte other than the percent sign. *)
Definition plain (b : byte) : bool :=
  let n := Byte.to_N b in
  ((32 <=? n) && (n <=? 126))%N && negb (Byte.eqb b "%"%byte).

(** The control segments the transformer does not rewrite by their final
    byte or their parameter list. *)
Definition unrecognized (cs : csi.CSI) : Prop :=
  (csi.Final cs <> "G"%byte /\ csi.Final cs <> "K"%byte) \/
  csi.IntParams cs = None \/
  (exists ps, csi.IntParams cs = Some ps /\ length ps <> 1%nat).

Definition cleanEnd (e : csi.ReadError) : Prop :=
  e = csi.EOF \/ e = csi.ErrClosedPipe.

(** The reads of a stream of text segments. *)
Definition textReads (chunks : list bytes) : list csi.ReadResult :=
  map (fun c => csi.Seg (csi.Text c)) chunks.

(** The text a segment stands for in the output: a text segment its own
    bytes, a control segment whatever [intercept] makes of it. *)
Definition writtenFor (E : env) (l : Logger) (lv : LogLevel)
    (seg : csi.Segment) (t : bytes) : Prop :=
  match seg with
  | csi.Text x => t = x
  | csi.Control _ => exists wa wb, intercept E l lv seg wa = Some (t, wb)
  end.

(** ** Concrete surroundings and segments *)

Definition fixedEnv (s : terminalSize) (tty : bool) : env :=
  {| sizeAt := fun _ => s;
     targetColour := fun _ => [];
     isTerminal := tty;
     fmtSprintf := fun _ _ => [] |}.

Definition infoLogger : Logger :=
  {| level := LogLevelInfo; scope := lit "x" |}.

Definition errorLogger : Logger :=
  {| level := LogLevelError; scope := lit "x" |}.

Definition cursorTo (c : Z) : csi.CSI :=
  {| csi.Final := "G"%byte;
     csi.IntParams := Some [c];
     csi.String := csiIntro ++ fmtInt c ++ ["G"%byte] |}.

Definition eraseLine (p : Z) : csi.CSI :=
  {| csi.Final := "K"%byte;
     csi.IntParams := Some [p];
     csi.String := csiIntro ++ fmtInt p ++ ["K"%byte] |}.

(** A colour sequence, ESC[1;31m. *)
Definition boldRed : csi.CSI :=
  {| csi.Final := "m"%byte;
     csi.IntParams := Some [1; 31];
     csi.String := ESC :: lit "[1;31m" |}.

(** ** Level names and configuration *)

Fixpoint bytesEqb (a b : bytes) : bool :=
  match a, b with
  | [], [] => true
  | x :: a', y :: b' => Byte.eqb x y && bytesEqb a' b'
  | _, _ => false
  end.

(** [LogLevel.String] on the numeric value of a level: the six names, and
    [LogLevel(n)] for any other number. *)
Definition levelName (n : Z) : bytes :=
  if n =? 0 then lit "trace"
  else if n =? 1 then lit "debug"
  else if n =? 2 then lit "info"
  else if n =? 3 then lit "notice"
  else if n =? 4 then lit "warn"
  else if n =? 5 then lit "error"
  else lit "LogLevel(" ++ fmtInt n ++ lit ")".

Definition LogLevel_String (l : LogLevel) : bytes := levelName (levelNum l).

(** The error of [UnmarshalText], which quotes the rejected text. *)
Inductive error : Set :=
| invalidLogLevel (text : bytes).

(** [UnmarshalText] on the receiver [l]: the receiver afterwards and the
    error returned, [None] for nil. *)
Definition UnmarshalText (l : LogLevel) (text : bytes)
  : LogLevel * option error :=
  if bytesEqb text (lit "trace") then (LogLevelTrace, None)
  else if bytesEqb text (lit "debug") then (LogLevelDebug, None)
  else if bytesEqb text (lit "info") then (LogLevelInfo, None)
  else if bytesEqb text (lit "notice") then (LogLevelNotice, None)
  else if bytesEqb text (lit "warn") then (LogLevelWarn, None)
  else if bytesEqb text (lit "error") then (LogLevelError, None)
  else (l, Some (invalidLogLevel text)).

Record LogConfig : Set := mkConfig {
  Level : LogLevel;
  Debug : bool;
  Trace : bool
}.

(** [NewLogger]: the threshold chosen from the configuration and the empty
    scope; the sizes it stores are those of [syncTermSize]. *)
Definition NewLogger (config : LogConfig) : Logger :=
  {| level := if Trace config then LogLevelTrace
              else if Debug config then LogLevelDebug
              else Level config;
     scope := [] |}.

(** The levelled print functions. *)
Definition Noticef (E : env) (l : Logger) (format : bytes) (args : list arg)
  : M unit :=
  logf E l LogLevelNotice format args.

Definition Infof (E : env) (l : Logger) (format : bytes) (args : list arg)
  : M unit :=
  logf E l LogLevelInfo format args.

Definition Debugf (E : env) (l : Logger) (format : bytes) (args : list arg)
  : M unit :=
  logf E l LogLevelDebug format args.

Definition Tracef (E : env) (l : Logger) (format : bytes) (args : list arg)
  : M unit :=
  logf E l LogLevelTrace format args.

Definition Errorf (E : env) (l : Logger) (format : bytes) (args : list arg)
  : M unit :=
  logf E l LogLevelError format args.

(** ** The set-up of [Exec] *)

(** [strings.Split(s, "\n")]. *)
Fixpoint splitLines (s : bytes) : list bytes :=
  match s with
  | [] => [[]]
  | b :: r =>
      if Byte.eqb b LF then [] :: splitLines r
      else match splitLines r with
           | [] => [[b]]
           | line :: rest => (b :: line) :: rest
           end
  end.

(** [strings.Join(lines, "\n")]. *)
Fixpoint joinLines (lines : list bytes) : bytes :=
  match lines with
  | [] => []
  | [line] => line
  | line :: rest => line ++ LF :: joinLines rest
  end.

(** The loop of [Exec] over the lines of the command, from index [i]. *)
Fixpoint noticeLines (E : env) (l : Logger) (i : nat) (lines : list bytes)
  : M unit :=
  match lines with
  | [] => ret tt
  | line :: rest =>
      Noticef E l (if Nat.eqb i 0 then lit "$ %s" else lit "  %s")
        [ArgString line] ;;;
      noticeLines E l (S i) rest
  end.

Definition logCommand (E : env) (l : Logger) (command : bytes) : M unit :=
  noticeLines E l 0 (splitLines command).

(** What [logCommand] prints for a command, line by line. *)
Definition commandLines (command : bytes) : list bytes :=
  match splitLines command with
  | [] => []
  | first :: rest =>
      (lit "$ " ++ first) :: map (fun line => lit "  " ++ line) rest
  end.

(** [pty.Winsize]. *)
Record Winsize : Set := mkWinsize { Rows : Z; Cols : Z; X : Z; Y : Z }.

(** The size given to the pseudo-terminal: the rows of [size] and, in
    [uint16] arithmetic, its width less the margin [m] and one. *)
Definition winsizeFor (size : terminalSize) (m : Z) : Winsize :=
  {| Rows := height size;
     Cols := uint16 (width size - uint16 (m + 1));
     X := 0;
     Y := 0 |}.

(** The first [pty.Setsize] of [Exec]: the size is loaded once and the
    margin once more. *)
Definition initialWinsize (E : env) : M Winsize :=
  size <- Load E ;;
  again <- Load E ;;
  ret (winsizeFor size (margin again)).

(** The [pty.Setsize] of [Exec] for a size received from the subscription. *)
Definition resizedWinsize (size : terminalSize) : Winsize :=
  winsizeFor size (margin size).

(** The size [Load] returns once [syncTermSize] has handled the signals. *)
Definition currentSize (init : option (Z * Z))
    (signals : list (option (Z * Z))) : terminalSize :=
  last (syncTermSize init signals) defaultSize.

(** The successful queries among the watcher's. *)
Definition successes (signals : list (option (Z * Z))) : list (Z * Z) :=
  flat_map (fun r => match r with Some s => [s] | None => [] end) signals.

(** ** Options of [Exec] *)

(** [syscall.SysProcAttr], the two fields [Exec] sets. *)
Record SysProcAttr : Set := mkAttr { Setsid : bool; Setctty : bool }.

(** Where a standard stream of the command goes: nowhere yet, the terminal
    side of the pseudo-terminal, or another file. *)
Inductive stream : Set :=
| Unset
| Tty
| OtherFile (fd : nat).

(** [exec.Cmd], the fields [Exec] and its options touch. *)
Record Cmd : Set := mkCmd {
  Path : bytes;
  Args : list bytes;
  Dir : bytes;
  Attr : option SysProcAttr;
  Stdin : stream;
  Stdout : stream;
  Stderr : stream
}.

(** A callback on the command: what it leaves of the command it is given. *)
Definition hook : Set := Cmd -> Cmd.

Record execOptions : Set := mkOptions {
  create : bytes -> Cmd;
  afterCreate : list hook;
  afterRun : list hook
}.

Definition ExecOption : Set := execOptions -> execOptions.

Definition ExecAfterRunHook (callback : hook) : ExecOption :=
  fun options =>
    {| create := create options;
       afterCreate := afterCreate options;
       afterRun := afterRun options ++ [callback] |}.

Definition ExecAfterCreateHook (callback : hook) : ExecOption :=
  fun options =>
    {| create := create options;
       afterCreate := afterCreate options ++ [callback];
       afterRun := afterRun options |}.

Definition ExecCreate (f : bytes -> Cmd) : ExecOption :=
  fun options =>
    {| create := f;
       afterCreate := afterCreate options;
       afterRun := afterRun options |}.

Definition setDir (dir : bytes) : hook :=
  fun cmd =>
    {| Path := Path cmd; Args := Args cmd; Dir := dir; Attr := Attr cmd;
       Stdin := Stdin cmd; Stdout := Stdout cmd; Stderr := Stderr cmd |}.

Definition ExecWorkingDir (dir : bytes) : ExecOption :=
  fun options =>
    {| create := create options;
       afterCreate := afterCreate options ++ [setDir dir];
       afterRun := afterRun options |}.

(** [exec.Command("/bin/sh", "-c", command)]. *)
Definition shCommand (command : bytes) : Cmd :=
  {| Path := lit "/bin/sh";
     Args := [lit "/bin/sh"; lit "-c"; command];
     Dir := [];
     Attr := None;
     Stdin := Unset; Stdout := Unset; Stderr := Unset |}.

Definition defaultOptions : execOptions :=
  {| create := shCommand; afterCreate := []; afterRun := [] |}.

(** The options of a call, applied in order to the defaults. *)
Definition gatherOptions (options : list ExecOption) : execOptions :=
  fold_left (fun opts option => option opts) options defaultOptions.

(** The command as created, given its own session when it has no
    attributes yet, and attached to the pseudo-terminal. *)
Definition attach (cmd : Cmd) : Cmd :=
  {| Path := Path cmd; Args := Args cmd; Dir := Dir cmd;
     Attr := match Attr cmd with
             | None => Some {| Setsid := true; Setctty := true |}
             | Some a => Some a
             end;
     Stdin := Tty; Stdout := Tty; Stderr := Tty |}.

Definition runHooks (hooks : list hook) (cmd : Cmd) : Cmd :=
  fold_left (fun c h => h c) hooks cmd.

(** The command [Exec] starts. *)
Definition prepare (options : list ExecOption) (command : bytes) : Cmd :=
  let opts := gatherOptions options in
  runHooks (afterCreate opts) (attach (create opts command)).

(** The absence of log lines in a trace. *)
Definition noPrintf (tr : list event) : Prop :=
  Forall (fun e => isPrintf e = false) tr.

(** The trace of a writer over text [t], from a state with [draw] set or
    not and [nl] buffered, with the contents of the prefixes forgotten. *)
Definition textShape (draw : bool) (nl t : bytes) : list event :=
  if hasVisible t
  then (if draw then [WritePrefix []] else [])
         ++ flat_map breakShape nl
         ++ flat_map byteShape (upToLastVisible t)
  else [].

(** The state of a writer after text [t]. *)
Definition stateAfter (st : scanState) (t : bytes) : scanState :=
  {| drawPrefix := drawPrefix st && negb (hasVisible t);
     newline := if hasVisible t then trailingBreaks t else newline st ++ t |}.

(** A prefix as [getPrefix] builds it above the threshold, for the size of
    some load. *)
Definition wellFormedPrefix (E : env) (l : Logger) (lv : LogLevel)
    (p : bytes) : Prop :=
  exists t label,
    label = ReplaceAll (rawLabel (margin (sizeAt E t)) (scope l))
              "%"%byte ["%"%byte; "%"%byte] /\
    label <> [] /\
    p = targetColour E label ++ label ++ resetCode ++ separator
          ++ ansiTable (isTerminal E) lv.

(** The percent signs of a string. *)
Definition percents (s : bytes) : nat :=
  length (filter (fun b => Byte.eqb b "%"%byte) s).

(** The sizes the successful queries of the watcher yield. *)
Definition sizesOf (queries : list (Z * Z)) : list terminalSize :=
  map (fun q => sizeOf (fst q) (snd q)) queries.

(** The trace of one printed line, the contents of its prefix forgotten. *)
Definition lineShape (line : bytes) : list event :=
  [WritePrefix []; Printf (line ++ resetCode ++ [LF])].

Definition countLF (s : bytes) : nat :=
  length (filter (fun b => Byte.eqb b LF) s).

Definition noLF (line : bytes) : Prop := Forall (fun b => b <> LF) line.

(** * Properties *)

(** ** Text shapes *)

Lemma hasVisible_app (a b : bytes) :
  hasVisible (a ++ b) = hasVisible a || hasVisible b.
Proof. apply existsb_app. Qed.

Lemma no_visible_all_breaks (t : bytes) :
  hasVisible t = false -> Forall (fun b => isNewline b = true) t.
Proof.
  induction t as [|b r IH]; simpl; intro H; constructor.
  - apply orb_false_elim in H. destruct H as [H _].
    unfold visible in H. now apply negb_false_iff in H.
  - apply IH. apply orb_false_elim in H. tauto.
Qed.

Lemma no_visible_trailing (t : bytes) :
  hasVisible t = false -> trailingBreaks t = t /\ upToLastVisible t = [].
Proof.
  destruct t as [|b r]; simpl; [easy|].
  intro H. apply orb_false_elim in H. destruct H as [Hb Hr].
  rewrite Hr. unfold visible in Hb. apply negb_false_iff in Hb.
  now rewrite Hb.
Qed.

Lemma trailing_snoc_break (t : bytes) (b : byte) :
  isNewline b = true ->
  trailingBreaks (t ++ [b]) = trailingBreaks t ++ [b] /\
  upToLastVisible (t ++ [b]) = upToLastVisible t.
Proof.
  intro Hb.
  assert (Hv : hasVisible [b] = false)
    by (simpl; unfold visible; now rewrite Hb).
  induction t as [|a r [IH1 IH2]].
  - simpl. now rewrite Hb.
  - cbn [app trailingBreaks upToLastVisible].
    rewrite hasVisible_app, Hv, orb_false_r.
    destruct (hasVisible r); [now rewrite IH1, IH2|].
    destruct (isNewline a); auto.
Qed.

Lemma trailing_snoc_visible (t : bytes) (b : byte) :
  isNewline b = false ->
  trailingBreaks (t ++ [b]) = [] /\ upToLastVisible (t ++ [b]) = t ++ [b].
Proof.
  intro Hb.
  assert (Hv : hasVisible [b] = true)
    by (simpl; unfold visible; now rewrite Hb).
  induction t as [|a r [IH1 IH2]].
  - simpl. now rewrite Hb.
  - cbn [app trailingBreaks upToLastVisible].
    rewrite hasVisible_app, Hv, orb_true_r. now rewrite IH1, IH2.
Qed.

Lemma body_trailing (t : bytes) : upToLastVisible t ++ trailingBreaks t = t.
Proof.
  induction t as [|b r IH]; simpl; [easy|].
  destruct (hasVisible r) eqn:Hr.
  - simpl. now rewrite IH.
  - destruct (isNewline b); reflexivity.
Qed.

Lemma trailing_all_breaks (t : bytes) :
  Forall (fun b => isNewline b = true) (trailingBreaks t).
Proof.
  induction t as [|b r IH]; simpl; [constructor|].
  destruct (hasVisible r) eqn:Hr; [assumption|].
  destruct (isNewline b) eqn:Hb.
  - constructor; [assumption|]. now apply no_visible_all_breaks.
  - now apply no_visible_all_breaks.
Qed.

Lemma byteShape_breaks (t : bytes) :
  Forall (fun b => isNewline b = true) t ->
  flat_map byteShape t = flat_map breakShape t.
Proof.
  induction 1 as [|b r Hb _ IH]; simpl; [easy|].
  unfold byteShape at 1. now rewrite Hb, IH.
Qed.

Lemma byteShape_visible (t : bytes) :
  Forall (fun b => isNewline b = false) t ->
  flat_map byteShape t = bytewise t.
Proof.
  induction 1 as [|b r Hb _ IH]; simpl; [easy|].
  unfold byteShape at 1. now rewrite Hb, IH.
Qed.

Lemma all_visible_hasVisible (b : byte) (t : bytes) :
  Forall (fun b => isNewline b = false) (b :: t) -> hasVisible (b :: t) = true.
Proof.
  intro H. inversion_clear H as [|? ? Hb _]. simpl. unfold visible.
  now rewrite Hb.
Qed.

Lemma all_visible_body (t : bytes) :
  Forall (fun b => isNewline b = false) t ->
  upToLastVisible t = t /\ trailingBreaks t = [].
Proof.
  induction t as [|b r IH]; intro H; [easy|].
  inversion H as [|? ? Hb Hr]; subst.
  destruct (IH Hr) as [IH1 IH2].
  cbn [upToLastVisible trailingBreaks].
  destruct r as [|c r'].
  - simpl. now rewrite Hb.
  - rewrite (all_visible_hasVisible c r' Hr). now rewrite IH1, IH2.
Qed.

(** ** Traces *)

Lemma dataBytes_app (a b : list event) :
  dataBytes (a ++ b) = dataBytes a ++ dataBytes b.
Proof. apply flat_map_app. Qed.


Lemma dataBytes_erase (tr : list event) : dataBytes (shape tr) = dataBytes tr.
Proof.
  unfold dataBytes, shape.
  induction tr as [|e r IH]; simpl; [easy|].
  rewrite IH. now destruct e.
Qed.

Lemma dataBytes_byteShape (t : bytes) : dataBytes (flat_map byteShape t) = t.
Proof.
  induction t as [|b r IH]; simpl; [easy|].
  rewrite dataBytes_app, IH. unfold byteShape, breakShape.
  now destruct (isNewline b).
Qed.

Lemma dataBytes_breakShape (t : bytes) : dataBytes (flat_map breakShape t) = t.
Proof. induction t as [|b r IH]; simpl; [easy|]. now rewrite IH. Qed.

Lemma dataBytes_bytewise (t : bytes) : dataBytes (bytewise t) = t.
Proof. induction t as [|b r IH]; simpl; [easy|]. now rewrite IH. Qed.

Lemma render_bytewise (t : bytes) : render (bytewise t) = t.
Proof. induction t as [|b r IH]; simpl; [easy|]. now rewrite IH. Qed.

Lemma countPrefixes_shape (tr : list event) :
  countPrefixes (shape tr) = countPrefixes tr.
Proof.
  unfold countPrefixes, shape.
  induction tr as [|e r IH]; simpl; [easy|].
  destruct e; simpl; auto.
Qed.

Lemma countPrefixes_app (a b : list event) :
  countPrefixes (a ++ b) = (countPrefixes a + countPrefixes b)%nat.
Proof. unfold countPrefixes. now rewrite filter_app, length_app. Qed.

Lemma countPrefixes_byteShape (t : bytes) :
  countPrefixes (flat_map byteShape t) = countBreaks t.
Proof.
  unfold countBreaks.
  induction t as [|b r IH]; simpl; [easy|].
  rewrite countPrefixes_app, IH. unfold byteShape, breakShape.
  destruct (isNewline b); reflexivity.
Qed.

Lemma shape_bytewise_inv (tr : list event) (t : bytes) :
  shape tr = bytewise t -> tr = bytewise t.
Proof.
  revert t. induction tr as [|e r IH]; intros [|b t]; simpl; try easy.
  intro H. injection H as He Hr. f_equal; [|now apply IH].
  destruct e; simpl in He; congruence.
Qed.


(** ** The monad *)

Lemma bind_some {A B : Type} (m : M A) (f : A -> M B) (w w1 : world) (a : A) :
  m w = Some (a, w1) -> bind m f w = f a w1.
Proof. intro H. unfold bind. now rewrite H. Qed.

Lemma bind_ret {A B : Type} (a : A) (f : A -> M B) (w : world) :
  bind (ret a) f w = f a w.
Proof. reflexivity. Qed.

Lemma bind_write {B : Type} (e : event) (f : unit -> M B) (w : world) :
  bind (write e) f w = f tt {| loads := loads w; stdout := stdout w ++ [e] |}.
Proof. reflexivity. Qed.

Lemma repeat_single (b : byte) (n : nat) : concat (repeat [b] n) = repeat b n.
Proof. induction n as [|n IH]; simpl; [easy|]. now rewrite IH. Qed.

Section ScopeAndPrefix.

Variable E : env.

Lemma getScope_value (l : Logger) (w : world) :
  1 <= margin (sizeAt E (loads w)) ->
  getScope E l w =
  Some (ReplaceAll (rawLabel (margin (sizeAt E (loads w))) (scope l))
          "%"%byte ["%"%byte; "%"%byte], tick w).
Proof.
  intro Hm. unfold getScope, rawLabel, Load, bind at 1.
  destruct (margin (sizeAt E (loads w)) <? Z.of_nat (length (scope l))) eqn:Hcmp.
  - apply Z.ltb_lt in Hcmp. unfold sliceFrom.
    replace ((0 <=? Z.of_nat (length (scope l)) - margin (sizeAt E (loads w)) + 1)
             && (Z.of_nat (length (scope l)) - margin (sizeAt E (loads w)) + 1
                 <=? Z.of_nat (length (scope l)))) with true.
    + reflexivity.
    + symmetry. apply andb_true_iff. split; apply Z.leb_le; lia.
  - apply Z.ltb_ge in Hcmp. unfold Repeat.
    replace (margin (sizeAt E (loads w)) - Z.of_nat (length (scope l)) <? 0)
      with false by (symmetry; apply Z.ltb_ge; lia).
    unfold bind, ret. now rewrite repeat_single.
Qed.


Lemma getPrefix_total (l : Logger) (lv : LogLevel) (w : world) :
  1 <= margin (sizeAt E (loads w)) ->
  exists p w1,
    getPrefix E l lv w = Some (p, w1) /\
    stdout w1 = stdout w /\ (loads w <= loads w1)%nat.
Proof.
  intro Hm. unfold getPrefix.
  destruct (levelGt (level l) lv).
  - exists [], w. auto.
  - rewrite (bind_some _ _ _ _ _ (getScope_value l w Hm)).
    destruct (ReplaceAll _ _ _); eexists; exists (tick w);
      (split; [reflexivity|split; [reflexivity|simpl; lia]]).
Qed.

End ScopeAndPrefix.

(** ** The text loop *)

Section TextLoop.

Variable E : env.
Variables (l : Logger) (lv : LogLevel).


(** What is known of the prefixes: computing one never panics, writes
    nothing, and yields bytes that satisfy [Q]. *)
Variable Q : bytes -> Prop.
Hypothesis prefix_ok : forall w, exists p w1,
  getPrefix E l lv w = Some (p, w1) /\ stdout w1 = stdout w /\ Q p.

Lemma flushNewlines_trace (nls : bytes) (w : world) :
  exists w' tr,
    flushNewlines E l lv nls w = Some (tt, w') /\
    stdout w' = stdout w ++ tr /\
    shape tr = flat_map breakShape nls /\
    prefixesSatisfy Q tr.
Proof.
  revert w. induction nls as [|nl rest IH]; intro w.
  - exists w, []. simpl. rewrite app_nil_r. repeat split. constructor.
  - cbn [flushNewlines]. rewrite bind_write.
    destruct (prefix_ok {| loads := loads w; stdout := stdout w ++ [WriteData [nl]] |})
      as (p & w1 & Hp & Hs & HQ).
    rewrite (bind_some _ _ _ _ _ Hp), bind_write.
    destruct (IH {| loads := loads w1; stdout := stdout w1 ++ [WritePrefix p] |})
      as (w' & tr & Hrun & Hout & Hsh & Hsat).
    exists w', (WriteData [nl] :: WritePrefix p :: tr).
    split; [exact Hrun|]. split; [|split].
    + rewrite Hout. simpl. rewrite Hs. simpl. now rewrite <- !app_assoc.
    + simpl. now rewrite <- Hsh.
    + repeat constructor; assumption.
Qed.

Lemma emitByte_break (st : scanState) (b : byte) (w : world) :
  isNewline b = true ->
  emitByte E l lv st b w =
  Some ({| drawPrefix := drawPrefix st; newline := newline st ++ [b] |}, w).
Proof. intro H. unfold emitByte. now rewrite H. Qed.

Lemma emitByte_visible (st : scanState) (b : byte) (w : world) :
  isNewline b = false ->
  exists w' tr,
    emitByte E l lv st b w = Some ({| drawPrefix := false; newline := [] |}, w') /\
    stdout w' = stdout w ++ tr /\
    shape tr = (if drawPrefix st then [WritePrefix []] else [])
                 ++ flat_map breakShape (newline st) ++ [WriteData [b]] /\
    prefixesSatisfy Q tr.
Proof.
  intro Hb. unfold emitByte. rewrite Hb.
  assert (Hfirst : exists w1 tr1,
    (if drawPrefix st then p <- getPrefix E l lv ;; write (WritePrefix p) else ret tt) w
      = Some (tt, w1) /\ stdout w1 = stdout w ++ tr1 /\
    shape tr1 = (if drawPrefix st then [WritePrefix []] else []) /\
    prefixesSatisfy Q tr1).
  { destruct (drawPrefix st).
    - destruct (prefix_ok w) as (p & w1 & Hp & Hs & HQ).
      exists {| loads := loads w1; stdout := stdout w1 ++ [WritePrefix p] |},
        [WritePrefix p].
      rewrite (bind_some _ _ _ _ _ Hp). unfold write. cbn [stdout]. rewrite Hs.
      split; [reflexivity|]. split; [reflexivity|]. split; [reflexivity|].
      repeat constructor. exact HQ.
    - exists w, []. simpl. rewrite app_nil_r.
      split; [reflexivity|]. split; [reflexivity|]. split; [reflexivity|].
      constructor. }
  destruct Hfirst as (w1 & tr1 & H1 & Ho1 & Hs1 & Hq1).
  rewrite (bind_some _ _ _ _ _ H1).
  destruct (flushNewlines_trace (newline st) w1) as (w2 & tr2 & H2 & Ho2 & Hs2 & Hq2).
  rewrite (bind_some _ _ _ _ _ H2), bind_write.
  eexists; exists (tr1 ++ tr2 ++ [WriteData [b]]).
  split; [reflexivity|]. split; [|split].
  - simpl. rewrite Ho2, Ho1. now rewrite <- !app_assoc.
  - unfold shape in *. rewrite !map_app, Hs1, Hs2. reflexivity.
  - unfold prefixesSatisfy in *. rewrite !Forall_app. repeat split; auto.
Qed.

Lemma emitText_app (a b : bytes) (st : scanState) (w : world) :
  emitText E l lv (a ++ b) st w = (st' <- emitText E l lv a st ;; emitText E l lv b st') w.
Proof.
  revert st w. induction a as [|x a IH]; intros st w; simpl; [reflexivity|].
  unfold bind.
  destruct (emitByte E l lv st x w) as [[st1 w1]|]; [|reflexivity].
  rewrite IH. reflexivity.
Qed.

(** The trace of a text segment: nothing until the text has a visible
    byte; then the pending prefix, the buffered line breaks, and the text
    up to its last visible byte, with a prefix after every line break;
    what follows the last visible byte stays in the buffer. *)
Lemma emitText_trace (t : bytes) (st : scanState) (w : world) :
  exists w' tr,
    emitText E l lv t st w =
      Some ({| drawPrefix := drawPrefix st && negb (hasVisible t);
               newline := if hasVisible t then trailingBreaks t
                          else newline st ++ t |}, w') /\
    stdout w' = stdout w ++ tr /\
    shape tr = (if hasVisible t
                then (if drawPrefix st then [WritePrefix []] else [])
                       ++ flat_map breakShape (newline st)
                       ++ flat_map byteShape (upToLastVisible t)
                else []) /\
    prefixesSatisfy Q tr.
Proof.
  induction t as [|b t IH] using rev_ind.
  - exists w, []. simpl. rewrite !app_nil_r, andb_true_r.
    destruct st; repeat split. constructor.
  - destruct IH as (w1 & tr1 & H1 & Ho1 & Hs1 & Hq1).
    rewrite emitText_app, (bind_some _ _ _ _ _ H1).
    cbn [emitText]. rewrite hasVisible_app.
    destruct (isNewline b) eqn:Hb.
    + rewrite (bind_some _ _ _ _ _ (emitByte_break _ b w1 Hb)).
      destruct (trailing_snoc_break t b Hb) as [Et Eu].
      assert (Hv : hasVisible [b] = false)
        by (simpl; unfold visible; now rewrite Hb).
      rewrite Hv, orb_false_r, Et, Eu. cbn [drawPrefix newline ret].
      exists w1, tr1. split; [|now repeat split].
      destruct (hasVisible t); [reflexivity|]. now rewrite app_assoc.
    + destruct (emitByte_visible
                  {| drawPrefix := drawPrefix st && negb (hasVisible t);
                     newline := if hasVisible t then trailingBreaks t
                                else newline st ++ t |} b w1 Hb)
        as (w2 & tr2 & H2 & Ho2 & Hs2 & Hq2).
      rewrite (bind_some _ _ _ _ _ H2).
      destruct (trailing_snoc_visible t b Hb) as [Et Eu].
      assert (Hv : hasVisible [b] = true)
        by (simpl; unfold visible; now rewrite Hb).
      rewrite Hv, orb_true_r, Et, Eu, andb_false_r. cbn [ret].
      exists w2, (tr1 ++ tr2). split; [reflexivity|]. split; [|split].
      * rewrite Ho2, Ho1. now rewrite app_assoc.
      * unfold shape in *. rewrite map_app, Hs1, Hs2.
        cbn [drawPrefix newline].
        assert (Hbs : flat_map byteShape (t ++ [b])
                      = flat_map byteShape t ++ [WriteData [b]]).
        { rewrite flat_map_app. cbn [flat_map]. unfold byteShape at 2.
          now rewrite Hb. }
        rewrite Hbs.
        destruct (hasVisible t) eqn:Ht.
        -- assert (Hsplit : flat_map byteShape t
                     = flat_map byteShape (upToLastVisible t)
                         ++ flat_map breakShape (trailingBreaks t)).
           { rewrite <- (byteShape_breaks _ (trailing_all_breaks t)).
             rewrite <- flat_map_app. now rewrite body_trailing. }
           rewrite Hsplit, andb_false_r. cbn [app negb].
           now rewrite <- !app_assoc.
        -- rewrite andb_true_r, flat_map_app.
           rewrite (byteShape_breaks _ (no_visible_all_breaks t Ht)).
           cbn [app]. now rewrite <- !app_assoc.
      * unfold prefixesSatisfy in *. rewrite Forall_app. auto.
Qed.

(** No byte of a text is lost or reordered: what was written as data,
    followed by what is still buffered, grows by exactly the text. *)
Lemma emitText_conservation (t : bytes) (st : scanState) (w : world) :
  exists st' w' tr,
    emitText E l lv t st w = Some (st', w') /\
    stdout w' = stdout w ++ tr /\
    dataBytes tr ++ newline st' = newline st ++ t /\
    prefixesSatisfy Q tr.
Proof.
  destruct (emitText_trace t st w) as (w' & tr & Hrun & Hout & Hsh & Hsat).
  eexists; exists w', tr. split; [exact Hrun|]. split; [exact Hout|].
  split; [|exact Hsat].
  rewrite <- dataBytes_erase, Hsh. cbn [newline].
  destruct (hasVisible t); [|reflexivity].
  rewrite !dataBytes_app, dataBytes_breakShape, dataBytes_byteShape.
  assert (dataBytes (if drawPrefix st then [WritePrefix []] else []) = [])
    as -> by now destruct (drawPrefix st).
  cbn [app]. rewrite <- app_assoc. now rewrite body_trailing.
Qed.

(** A text without line breaks is written at once, byte by byte, after
    what was pending: the first prefix and the buffered line breaks. *)
Lemma emitText_visible_text (b : byte) (t : bytes) (st : scanState) (w : world) :
  Forall (fun b => isNewline b = false) (b :: t) ->
  exists w' pend,
    emitText E l lv (b :: t) st w
      = Some ({| drawPrefix := false; newline := [] |}, w') /\
    stdout w' = stdout w ++ pend ++ bytewise (b :: t) /\
    dataBytes pend = newline st /\
    prefixesSatisfy Q pend.
Proof.
  intro Hvis.
  destruct (emitText_trace (b :: t) st w) as (w' & tr & Hrun & Hout & Hsh & Hsat).
  destruct (all_visible_body _ Hvis) as [Eu Et].
  rewrite (all_visible_hasVisible b t Hvis) in Hrun, Hsh.
  rewrite Eu, (byteShape_visible _ Hvis), app_assoc in Hsh.
  rewrite Et, andb_false_r in Hrun.
  unfold shape in Hsh. apply map_eq_app in Hsh.
  destruct Hsh as (pend & rest & Etr & Hpend & Hrest).
  apply shape_bytewise_inv in Hrest. subst tr rest.
  exists w', pend. split; [exact Hrun|]. split; [exact Hout|]. split.
  - rewrite <- dataBytes_erase. unfold shape. rewrite Hpend.
    rewrite dataBytes_app, dataBytes_breakShape.
    now destruct (drawPrefix st).
  - unfold prefixesSatisfy in *. apply Forall_app in Hsat. tauto.
Qed.

Lemma scanFrom_text (chunks : list bytes) (rest : list csi.ReadResult)
    (st : scanState) (w : world) :
  scanFrom E l lv st (textReads chunks ++ rest) w
  = (st' <- emitText E l lv (concat chunks) st ;;
     scanFrom E l lv st' rest) w.
Proof.
  revert st w. unfold textReads.
  induction chunks as [|c chunks IH]; intros st w; [reflexivity|].
  cbn [map app scanFrom concat]. unfold processSegment, intercept.
  unfold bind at 1 2. cbn [ret].
  unfold bind at 1. rewrite emitText_app. unfold bind.
  destruct (emitText E l lv c st w) as [[st1 w1]|]; [|reflexivity].
  rewrite IH. reflexivity.
Qed.

(** A stream of text segments that ends cleanly. *)
Lemma scan_text_clean (chunks : list bytes) (e : csi.ReadError)
    (st : scanState) (w : world) :
  e = csi.EOF \/ e = csi.ErrClosedPipe ->
  exists w' tr,
    scanFrom E l lv st
      (textReads chunks ++ [csi.Err e]) w = Some (Exited, w') /\
    stdout w' = stdout w ++ tr /\
    shape tr =
      (if hasVisible (concat chunks)
       then (if drawPrefix st then [WritePrefix []] else [])
              ++ flat_map breakShape (newline st)
              ++ flat_map byteShape (upToLastVisible (concat chunks))
       else [])
      ++ [WriteData (if hasVisible (concat chunks)
                     then trailingBreaks (concat chunks)
                     else newline st ++ concat chunks)] /\
    prefixesSatisfy Q tr.
Proof.
  intro He. rewrite scanFrom_text.
  destruct (emitText_trace (concat chunks) st w)
    as (w1 & tr & Hrun & Hout & Hsh & Hsat).
  rewrite (bind_some _ _ _ _ _ Hrun). cbn [scanFrom].
  assert (Hfin : finish E l
                   {| drawPrefix := drawPrefix st && negb (hasVisible (concat chunks));
                      newline := if hasVisible (concat chunks)
                                 then trailingBreaks (concat chunks)
                                 else newline st ++ concat chunks |} e
                 = write (WriteData (if hasVisible (concat chunks)
                                     then trailingBreaks (concat chunks)
                                     else newline st ++ concat chunks)))
    by (destruct He; subst e; reflexivity).
  rewrite Hfin, bind_write. cbn [ret].
  eexists; exists (tr ++ [WriteData (if hasVisible (concat chunks)
                                     then trailingBreaks (concat chunks)
                                     else newline st ++ concat chunks)]).
  split; [reflexivity|]. split; [|split].
  - cbn [stdout]. rewrite Hout. now rewrite app_assoc.
  - unfold shape in *. rewrite map_app, Hsh. reflexivity.
  - unfold prefixesSatisfy in *. apply Forall_app. split; [exact Hsat|].
    repeat constructor.
Qed.

End TextLoop.

(** ** Stored terminal sizes *)

Lemma sizeOf_in_range (w h : Z) :
  0 <= w < 65536 ->
  width (sizeOf w h) = w /\ margin (sizeOf w h) = Z.max 16 (w / 5).
Proof.
  intro Hw. unfold sizeOf, uint16. cbn [width margin].
  rewrite Z.quot_div_nonneg by lia.
  assert (0 <= w / 5 < 65536)
    by (split; [apply Z.div_pos; lia|apply Z.div_lt_upper_bound; lia]).
  split; apply Z.mod_small; lia.
Qed.

Lemma sizeOf_storedOK (w h : Z) : 0 <= w < 65536 -> storedOK (sizeOf w h).
Proof.
  intro Hw. destruct (sizeOf_in_range w h Hw) as [Ew Em].
  unfold storedOK. rewrite Ew, Em.
  assert (0 <= w / 5) by (apply Z.div_pos; lia).
  assert (5 * (w / 5) <= w) by (apply Z.mul_div_le; lia).
  repeat split; lia.
Qed.

(** C6, as the code has it: every size stored by [syncTermSize], the initial
    one and one per successful resize query, has margin [max(16, width/5)],
    at least 16, and satisfies [margin < width] exactly when the width is at
    least 17 columns. *)
Theorem C6_stored_sizes (init : option (Z * Z))
    (signals : list (option (Z * Z))) :
  reportable init ->
  Forall reportable signals ->
  Forall storedOK (syncTermSize init signals).
Proof.
  intros Hinit Hsig. unfold syncTermSize. constructor.
  - destruct init as [[w h]|]; simpl in *.
    + now apply sizeOf_storedOK.
    + unfold storedOK. simpl. repeat split; lia.
  - induction Hsig as [|r rest Hr _ IH]; simpl; [constructor|].
    destruct r as [[w h]|]; [|exact IH].
    constructor; [now apply sizeOf_storedOK|exact IH].
Qed.

Lemma C6_stored_sizes_witness :
  Forall storedOK
    (syncTermSize (Some (120, 40)) [Some (10, 24); None; Some (80, 25)]).
Proof.
  apply C6_stored_sizes.
  - simpl. lia.
  - repeat constructor; simpl; lia.
Defined.

(** C6 fails as stated: a terminal 10 columns wide at start-up, resized to
    16 columns, stores sizes whose margin is not below the width. *)
Lemma C6_narrow_terminal :
  syncTermSize (Some (10, 24)) [Some (16, 24)]
    = [mkSize 16 10 24; mkSize 16 16 24] /\
  ~ Forall (fun s => margin s < width s)
      (syncTermSize (Some (10, 24)) [Some (16, 24)]).
Proof.
  split; [reflexivity|].
  intro H. inversion_clear H as [|? ? H1 _]. vm_compute in H1. discriminate.
Qed.

(** ** The scope label *)

Lemma plain_not_continuation (b : byte) :
  plain b = true -> isContinuation b = false.
Proof.
  unfold plain, isContinuation. intro H.
  apply andb_true_iff in H. destruct H as [H _].
  apply andb_true_iff in H. destruct H as [_ H].
  apply N.leb_le in H. apply andb_false_iff. left. apply N.leb_gt. lia.
Qed.

Lemma columns_plain (s : bytes) :
  Forall (fun b => plain b = true) s -> columns s = length s.
Proof.
  unfold columns. induction 1 as [|b r Hb _ IH]; simpl; [easy|].
  rewrite (plain_not_continuation b Hb). simpl. now rewrite IH.
Qed.

Lemma columns_app (a b : bytes) : columns (a ++ b) = (columns a + columns b)%nat.
Proof. unfold columns. now rewrite filter_app, length_app. Qed.

Lemma ReplaceAll_absent (s : bytes) (old : byte) (new : bytes) :
  Forall (fun b => Byte.eqb b old = false) s -> ReplaceAll s old new = s.
Proof.
  unfold ReplaceAll. induction 1 as [|b r Hb _ IH]; simpl; [easy|].
  now rewrite Hb, IH.
Qed.

Lemma plain_no_percent (s : bytes) :
  Forall (fun b => plain b = true) s ->
  Forall (fun b => Byte.eqb b "%"%byte = false) s.
Proof.
  apply Forall_impl. intros b H. unfold plain in H.
  apply andb_true_iff in H. destruct H as [_ H]. now apply negb_true_iff.
Qed.

Lemma plain_spaces (n : nat) : Forall (fun b => plain b = true) (repeat " "%byte n).
Proof. induction n; simpl; constructor; auto. Qed.

Lemma Forall_skipn {A : Type} (P : A -> Prop) (n : nat) (s : list A) :
  Forall P s -> Forall P (skipn n s).
Proof.
  intro H. rewrite <- (firstn_skipn n s) in H.
  apply Forall_app in H. tauto.
Qed.

(** C7, as the code has it: for a scope of printable ASCII characters
    without a percent sign and a margin of at least one column, the label
    takes exactly [m] columns: a scope longer than [m] is cut to the
    ellipsis and its last [m - 1] bytes, a shorter one is padded with
    spaces. *)
Theorem C7_scope_label (E : env) (l : Logger) (w : world) :
  let m := margin (sizeAt E (loads w)) in
  let len := Z.of_nat (length (scope l)) in
  1 <= m ->
  Forall (fun b => plain b = true) (scope l) ->
  exists label,
    getScope E l w = Some (label, tick w) /\
    Z.of_nat (columns label) = m /\
    (m < len -> label = ellipsis ++ skipn (Z.to_nat (len - (m - 1))) (scope l)) /\
    (len <= m -> label = scope l ++ repeat " "%byte (Z.to_nat (m - len))).
Proof.
  intros m len Hm Hplain.
  assert (Hlabel : Forall (fun b => Byte.eqb b "%"%byte = false)
                     (rawLabel m (scope l))).
  { unfold rawLabel. destruct (m <? Z.of_nat (length (scope l))).
    - apply Forall_app. split; [repeat constructor|].
      apply plain_no_percent. now apply Forall_skipn.
    - apply Forall_app. split; apply plain_no_percent; auto using plain_spaces. }
  exists (rawLabel m (scope l)). split; [|split; [|split]].
  - unfold m. rewrite (getScope_value E l w Hm).
    fold m. now rewrite (ReplaceAll_absent _ _ _ Hlabel).
  - unfold rawLabel. fold len. destruct (m <? len) eqn:Hcmp.
    + apply Z.ltb_lt in Hcmp. rewrite columns_app.
      rewrite (columns_plain (skipn _ _)) by now apply Forall_skipn.
      rewrite length_skipn. change (columns ellipsis) with 1%nat. lia.
    + apply Z.ltb_ge in Hcmp. rewrite columns_plain.
      * rewrite length_app, repeat_length. lia.
      * apply Forall_app. auto using plain_spaces.
  - intro H. unfold rawLabel. fold len.
    apply Z.ltb_lt in H. rewrite H. do 2 f_equal. lia.
  - intro H. unfold rawLabel. fold len.
    apply Z.ltb_ge in H. now rewrite H.
Qed.

Lemma C7_scope_label_witness :
  exists label,
    getScope (fixedEnv (mkSize 4 80 25) true) (mkLogger LogLevelInfo (lit "main.go"))
      emptyWorld = Some (label, tick emptyWorld) /\
    Z.of_nat (columns label) = 4 /\
    (4 < 7 -> label = ellipsis ++ skipn (Z.to_nat (7 - (4 - 1))) (lit "main.go")) /\
    (7 <= 4 -> label = lit "main.go" ++ repeat " "%byte (Z.to_nat (4 - 7))).
Proof.
  apply (C7_scope_label (fixedEnv (mkSize 4 80 25) true)
           (mkLogger LogLevelInfo (lit "main.go")) emptyWorld).
  - simpl. lia.
  - repeat constructor.
Defined.

(** C7 fails as stated: a percent sign in the scope is doubled, so the
    label of scope [a%] at margin 4 takes five columns; and the padding is
    counted in bytes, so the label of the two-byte, one-column scope [é] at
    margin 4 takes three columns. *)
Lemma C7_label_width_off :
  (exists label,
     getScope (fixedEnv (mkSize 4 80 25) true) (mkLogger LogLevelInfo (lit "a%"))
       emptyWorld = Some (label, tick emptyWorld) /\
     label = lit "a%%  " /\ columns label = 5%nat) /\
  (exists label,
     getScope (fixedEnv (mkSize 4 80 25) true) (mkLogger LogLevelInfo (lit "é"))
       emptyWorld = Some (label, tick emptyWorld) /\
     label = lit "é  " /\ columns label = 3%nat).
Proof.
  split.
  - exists (lit "a%%  "). repeat split; vm_compute; reflexivity.
  - exists (lit "é  "). repeat split; vm_compute; reflexivity.
Qed.

(** Why the margin has to be positive: at margin 0 the slice expression of
    [getScope] is out of range for a non-empty scope, and the call panics. *)
Lemma getScope_zero_margin :
  getScope (fixedEnv (mkSize 0 80 25) true) (mkLogger LogLevelInfo (lit "x"))
    emptyWorld = None.
Proof. reflexivity. Qed.

(** ** Integers and their decimal form *)

Lemma wrapInt_in_range (z : Z) : MinInt <= z <= MaxInt -> wrapInt z = z.
Proof.
  unfold MinInt, MaxInt, wrapInt. intro H.
  rewrite Z.mod_small; lia.
Qed.

Lemma digits_visible (d : Decimal.uint) :
  Forall (fun b => isNewline b = false)
    (list_byte_of_string (NilEmpty.string_of_uint d)).
Proof.
  unfold list_byte_of_string.
  induction d; cbn; constructor; solve [reflexivity | assumption].
Qed.

Lemma fmtInt_visible (z : Z) : Forall (fun b => isNewline b = false) (fmtInt z).
Proof.
  unfold fmtInt. destruct (Z.to_int z) as [d|d]; cbn [NilZero.string_of_int].
  - destruct d; try apply digits_visible. repeat constructor.
  - change (Forall (fun b => isNewline b = false)
              ("-"%byte :: list_byte_of_string (NilZero.string_of_uint d))).
    constructor; [reflexivity|].
    destruct d; try apply digits_visible. repeat constructor.
Qed.

(** ** The transformer *)

Section TransformerClaims.

Variable E : env.


Lemma intercept_unrecognized (l : Logger) (lv : LogLevel) (cs : csi.CSI)
    (w : world) :
  unrecognized cs ->
  intercept E l lv (csi.Control cs) w = Some (csi.String cs, w).
Proof.
  intros [[HG HK]|[Hnone|(ps & Hps & Hlen)]]; cbn [intercept].
  - destruct (csi.IntParams cs) as [[|p [|q ps]]|]; try reflexivity.
    destruct (Byte.eqb (csi.Final cs) "G") eqn:EG;
      [apply byte_dec_bl in EG; contradiction|].
    destruct (Byte.eqb (csi.Final cs) "K") eqn:EK;
      [apply byte_dec_bl in EK; contradiction|].
    reflexivity.
  - now rewrite Hnone.
  - rewrite Hps. destruct ps as [|p [|q ps]]; try reflexivity.
    now contradiction Hlen.
Qed.

Section WithMargin.

(** Every size the event source holds has a margin of at least one
    column, as every size [syncTermSize] stores has. *)
Hypothesis margin_positive : forall t, 1 <= margin (sizeAt E t).

Lemma prefix_total (l : Logger) (lv : LogLevel) (w : world) :
  exists p w1,
    getPrefix E l lv w = Some (p, w1) /\ stdout w1 = stdout w /\ True.
Proof.
  destruct (getPrefix_total E l lv w
              (margin_positive _)) as (p & w1 & H & Hs & _).
  now exists p, w1.
Qed.

(** C1, as the code has it: a cursor-horizontal-absolute segment with
    one parameter [c] is written as ESC[<c + margin + 2>G, the margin
    being the one loaded when the segment is processed, whenever that
    sum is within the range of [int]; the bytes follow whatever was
    pending (the first prefix, buffered line breaks). *)
Theorem C1_cursor_column (l : Logger) (lv : LogLevel) (st : scanState)
    (w : world) (cs : csi.CSI) (c : Z) :
  csi.Final cs = "G"%byte ->
  csi.IntParams cs = Some [c] ->
  MinInt <= c ->
  c + margin (sizeAt E (loads w)) + 2 <= MaxInt ->
  exists w' pend,
    processSegment E l lv st (csi.Control cs) w
      = Some ({| drawPrefix := false; newline := [] |}, w') /\
    stdout w' = stdout w ++ pend
                  ++ bytewise (csiIntro
                                 ++ fmtInt (c + margin (sizeAt E (loads w)) + 2)
                                 ++ ["G"%byte]) /\
    dataBytes pend = newline st.
Proof.
  intros HG Hps Hlo Hhi.
  pose proof (margin_positive (loads w)) as Hm.
  assert (Hi : intercept E l lv (csi.Control cs) w
               = Some (csiIntro
                         ++ fmtInt (c + margin (sizeAt E (loads w)) + 2)
                         ++ ["G"%byte], tick w)).
  { cbn [intercept]. rewrite Hps, HG.
    change (Byte.eqb "G" "G") with true. cbv [bind Load ret intAdd].
    rewrite (wrapInt_in_range (c + _))
      by (unfold MinInt, MaxInt in *; lia).
    rewrite wrapInt_in_range by (unfold MinInt, MaxInt in *; lia).
    reflexivity. }
  unfold processSegment. rewrite (bind_some _ _ _ _ _ Hi).
  destruct (emitText_visible_text E l lv
              (fun _ => True) (prefix_total l lv) ESC
              ("["%byte :: fmtInt (c + margin (sizeAt E (loads w)) + 2)
                 ++ ["G"%byte]) st (tick w))
    as (w' & pend & Hrun & Hout & Hdata & _).
  { constructor; [reflexivity|]. constructor; [reflexivity|].
    apply Forall_app. split; [apply fmtInt_visible|].
    repeat constructor. }
  exists w', pend. split; [exact Hrun|]. split; [exact Hout|exact Hdata].
Qed.

(** C2: an erase-in-line segment with the single parameter 1 or 2 is
    replaced by the cursor save, the original sequence, the move to
    column one, the prefix of the writer's level and the cursor restore,
    in this order, and all of that text is written: after what was
    pending, every byte of it reaches the output, in order, with a prefix
    after each line-break byte it may hold, and nothing stays buffered;
    without line breaks it is written at once, byte for byte.  With
    parameter 0 the segment is written as the text of its own bytes. *)
Theorem C2_erase_in_line (l : Logger) (lv : LogLevel) (st : scanState)
    (w : world) (cs : csi.CSI) (p : Z) :
  csi.Final cs = "K"%byte ->
  csi.IntParams cs = Some [p] ->
  (p = 1 \/ p = 2 ->
   exists pre w1 st' w' tr,
     getPrefix E l lv w = Some (pre, w1) /\
     intercept E l lv (csi.Control cs) w
       = Some (saveCursor ++ csi.String cs ++ toColumnOne
                 ++ pre ++ restoreCursor, w1) /\
     processSegment E l lv st (csi.Control cs) w = Some (st', w') /\
     stdout w' = stdout w ++ tr /\
     dataBytes tr ++ newline st'
       = newline st ++ saveCursor ++ csi.String cs ++ toColumnOne
           ++ pre ++ restoreCursor /\
     st' = {| drawPrefix := false; newline := [] |} /\
     dataBytes tr
       = newline st ++ saveCursor ++ csi.String cs ++ toColumnOne
           ++ pre ++ restoreCursor /\
     shape tr
       = (if drawPrefix st then [WritePrefix []] else [])
           ++ flat_map breakShape (newline st)
           ++ flat_map byteShape
                (saveCursor ++ csi.String cs ++ toColumnOne
                   ++ pre ++ restoreCursor) /\
     (Forall (fun b => isNewline b = false) (csi.String cs) ->
      Forall (fun b => isNewline b = false) pre ->
      exists pend,
        tr = pend ++ bytewise (saveCursor ++ csi.String cs ++ toColumnOne
                                 ++ pre ++ restoreCursor) /\
        dataBytes pend = newline st)) /\
  (p = 0 ->
   intercept E l lv (csi.Control cs) w = Some (csi.String cs, w) /\
   processSegment E l lv st (csi.Control cs) w
     = processSegment E l lv st (csi.Text (csi.String cs)) w /\
   exists st' w' tr,
     processSegment E l lv st (csi.Control cs) w = Some (st', w') /\
     stdout w' = stdout w ++ tr /\
     dataBytes tr ++ newline st' = newline st ++ csi.String cs /\
     (csi.String cs <> [] ->
      Forall (fun b => isNewline b = false) (csi.String cs) ->
      exists pend,
        tr = pend ++ bytewise (csi.String cs) /\
        dataBytes pend = newline st /\
        st' = {| drawPrefix := false; newline := [] |})).
Proof.
  intros HK Hps.
  assert (Hi : intercept E l lv (csi.Control cs) w
               = (if (p =? 1) || (p =? 2)
                  then pre <- getPrefix E l lv ;;
                       ret (saveCursor ++ csi.String cs ++ toColumnOne
                              ++ pre ++ restoreCursor)
                  else ret (csi.String cs)) w).
  { cbn [intercept]. rewrite Hps, HK. reflexivity. }
  split.
  - intro Hp.
    assert (Hor : (p =? 1) || (p =? 2) = true)
      by (destruct Hp; subst p; reflexivity).
    rewrite Hor in Hi.
    destruct (prefix_total l lv w) as (pre & w1 & Hpre & Hs1 & _).
    rewrite (bind_some _ _ _ _ _ Hpre) in Hi. cbn [ret] in Hi.
    set (text := saveCursor ++ csi.String cs ++ toColumnOne
                   ++ pre ++ restoreCursor) in *.
    assert (Hsplit : text
                     = (saveCursor ++ csi.String cs ++ toColumnOne ++ pre
                          ++ [ESC; "["%byte]) ++ ["u"%byte])
      by (unfold text; rewrite <- !app_assoc; reflexivity).
    destruct (trailing_snoc_visible
                (saveCursor ++ csi.String cs ++ toColumnOne ++ pre
                   ++ [ESC; "["%byte]) "u"%byte eq_refl) as [Et Eu].
    rewrite <- Hsplit in Et, Eu.
    assert (Hv : hasVisible text = true)
      by (rewrite Hsplit, hasVisible_app; apply orb_true_r).
    destruct (emitText_trace E l lv (fun _ => True) (prefix_total l lv)
                text st w1) as (w' & tr & Hrun & Hout & Hsh & _).
    rewrite Hv, Et, andb_false_r in Hrun. rewrite Hv, Eu in Hsh.
    assert (Hdata : dataBytes tr = newline st ++ text).
    { rewrite <- dataBytes_erase, Hsh.
      rewrite !dataBytes_app, dataBytes_breakShape, dataBytes_byteShape.
      now destruct (drawPrefix st). }
    exists pre, w1, {| drawPrefix := false; newline := [] |}, w', tr.
    split; [exact Hpre|]. split; [exact Hi|].
    split; [unfold processSegment; now rewrite (bind_some _ _ _ _ _ Hi)|].
    split; [now rewrite Hout, Hs1|].
    split; [cbn [newline]; now rewrite app_nil_r|].
    split; [reflexivity|]. split; [exact Hdata|]. split; [exact Hsh|].
    intros Hraw Hprefix.
    assert (Hvis : Forall (fun b => isNewline b = false) text).
    { unfold text. repeat (apply Forall_app; split); auto;
        repeat constructor. }
    rewrite (byteShape_visible _ Hvis), app_assoc in Hsh.
    unfold shape in Hsh. apply map_eq_app in Hsh.
    destruct Hsh as (pend & rest & Etr & Hpend & Hrest).
    apply shape_bytewise_inv in Hrest. subst tr rest.
    exists pend. split; [reflexivity|].
    rewrite <- dataBytes_erase. unfold shape. rewrite Hpend.
    rewrite dataBytes_app, dataBytes_breakShape.
    now destruct (drawPrefix st).
  - intro Hp. subst p. cbn [Z.eqb orb ret] in Hi. split; [exact Hi|].
    assert (Hproc : processSegment E l lv st (csi.Control cs) w
                    = emitText E l lv (csi.String cs) st w)
      by (unfold processSegment; now rewrite (bind_some _ _ _ _ _ Hi)).
    split; [now rewrite Hproc|].
    destruct (emitText_conservation E l lv (fun _ => True) (prefix_total l lv)
                (csi.String cs) st w)
      as (st' & w' & tr & Hrun & Hout & Hdata & _).
    exists st', w', tr. rewrite Hproc.
    split; [exact Hrun|]. split; [exact Hout|]. split; [exact Hdata|].
    intros Hne Hvis. destruct (csi.String cs) as [|b t]; [contradiction|].
    destruct (emitText_visible_text E l lv (fun _ => True) (prefix_total l lv)
                b t st w Hvis)
      as (w2 & pend & Hrun2 & Hout2 & Hdata2 & _).
    rewrite Hrun in Hrun2. injection Hrun2 as Est Ew. subst w2.
    exists pend. split; [|split; [exact Hdata2|exact Est]].
    rewrite Hout in Hout2. now apply app_inv_head in Hout2.
Qed.

(** C4: a control segment that is unrecognized (another final byte, or
    parameters that do not parse or are not exactly one) is processed as
    the text of its original bytes: every byte of it is written or
    buffered, in order, and when it holds no line-break byte it is
    written at once, byte for byte, after what was pending. *)
Theorem C4_passthrough (l : Logger) (lv : LogLevel) (st : scanState)
    (w : world) (cs : csi.CSI) :
  unrecognized cs ->
  processSegment E l lv st (csi.Control cs) w
    = processSegment E l lv st (csi.Text (csi.String cs)) w /\
  exists st' w' tr,
    processSegment E l lv st (csi.Control cs) w = Some (st', w') /\
    stdout w' = stdout w ++ tr /\
    dataBytes tr ++ newline st' = newline st ++ csi.String cs /\
    (csi.String cs <> [] ->
     Forall (fun b => isNewline b = false) (csi.String cs) ->
     exists pend,
       tr = pend ++ bytewise (csi.String cs) /\
       dataBytes pend = newline st /\
       st' = {| drawPrefix := false; newline := [] |}).
Proof.
  intro Hu.
  pose proof (intercept_unrecognized l lv cs w Hu) as Hi.
  assert (Hp : processSegment E l lv st (csi.Control cs) w
               = emitText E l lv
                   (csi.String cs) st w).
  { unfold processSegment. now rewrite (bind_some _ _ _ _ _ Hi). }
  split; [now rewrite Hp|].
  destruct (emitText_conservation E l lv
              (fun _ => True) (prefix_total l lv) (csi.String cs) st w)
    as (st' & w' & tr & Hrun & Hout & Hdata & _).
  exists st', w', tr. rewrite Hp.
  split; [exact Hrun|]. split; [exact Hout|]. split; [exact Hdata|].
  intros Hne Hvis. destruct (csi.String cs) as [|b t]; [contradiction|].
  destruct (emitText_visible_text E l lv
              (fun _ => True) (prefix_total l lv) b t st w Hvis)
    as (w2 & pend & Hrun2 & Hout2 & Hdata2 & _).
  rewrite Hrun in Hrun2. injection Hrun2 as Est Ew. subst w2.
  exists pend. split; [|split; [exact Hdata2|exact Est]].
  rewrite Hout in Hout2. now apply app_inv_head in Hout2.
Qed.

End WithMargin.

End TransformerClaims.

(** ** Whole streams *)




Section StreamClaims.

Variable E : env.


Lemma scanFrom_segments (l : Logger) (lv : LogLevel) (segs : list csi.Segment)
    (rest : list csi.ReadResult) (st : scanState) (w : world) :
  scanFrom E l lv st (map csi.Seg segs ++ rest) w
  = match scanFrom E l lv st (map csi.Seg segs) w with
    | Some (Reading st', w') => scanFrom E l lv st' rest w'
    | Some (Exited, w') => Some (Exited, w')
    | None => None
    end.
Proof.
  revert st w. induction segs as [|seg segs IH]; intros st w; [reflexivity|].
  cbn [map app scanFrom]. unfold bind.
  destruct (processSegment E l lv st seg w) as [[st1 w1]|]; [|reflexivity].
  apply IH.
Qed.

Section BelowThreshold.

Variables (l : Logger) (lv : LogLevel).
Hypothesis below : levelGt (level l) lv = true.





End BelowThreshold.


Section WithMargin.

Hypothesis margin_positive : forall t, 1 <= margin (sizeAt E t).

(** C3, as the code has it: over a stream of text that ends cleanly,
    the trace is a prefix, then the text up to its last visible byte
    with a prefix after every line-break byte (line feed or carriage
    return), then the line breaks that trail the text, written by the
    final flush with no prefix; a text without a visible byte gets no
    prefix at all.  So a text of [k] line-break bytes that ends in a
    visible byte gets exactly [k + 1] prefixes. *)
Theorem C3_prefix_count (l : Logger) (lv : LogLevel) (chunks : list bytes)
    (e : csi.ReadError) (w : world) :
  cleanEnd e ->
  exists w' tr,
    writerScanner E l lv (textReads chunks ++ [csi.Err e]) w
      = Some (Exited, w') /\
    stdout w' = stdout w ++ tr /\
    shape tr =
      (if hasVisible (concat chunks)
       then WritePrefix []
              :: flat_map byteShape (upToLastVisible (concat chunks))
       else [])
      ++ [WriteData (trailingBreaks (concat chunks))] /\
    countPrefixes tr =
      (if hasVisible (concat chunks)
       then S (countBreaks (upToLastVisible (concat chunks)))
       else 0%nat) /\
    (forall x b,
        concat chunks = x ++ [b] -> isNewline b = false ->
        countPrefixes tr = S (countBreaks (concat chunks)) /\
        shape tr = WritePrefix [] :: flat_map byteShape (concat chunks)
                     ++ [WriteData []]).
Proof.
  intro He.
  assert (Hpre : forall w0, exists p w1,
             getPrefix E l lv w0 = Some (p, w1) /\
             stdout w1 = stdout w0 /\ True).
  { intro w0.
    destruct (getPrefix_total E l lv w0
                (margin_positive _)) as (p & w1 & H & Hs & _).
    now exists p, w1. }
  destruct (scan_text_clean E l lv _ Hpre
              chunks e initialScan w He) as (w' & tr & Hrun & Hout & Hsh & _).
  cbn [initialScan drawPrefix newline flat_map app] in Hsh.
  assert (Hshape : shape tr =
      (if hasVisible (concat chunks)
       then WritePrefix []
              :: flat_map byteShape (upToLastVisible (concat chunks))
       else [])
      ++ [WriteData (trailingBreaks (concat chunks))]).
  { rewrite Hsh. destruct (hasVisible (concat chunks)) eqn:Hv; [reflexivity|].
    now destruct (no_visible_trailing _ Hv) as [-> _]. }
  assert (Hcount : countPrefixes tr =
      (if hasVisible (concat chunks)
       then S (countBreaks (upToLastVisible (concat chunks)))
       else 0%nat)).
  { rewrite <- countPrefixes_shape, Hshape, countPrefixes_app.
    destruct (hasVisible (concat chunks)).
    - change (WritePrefix [] :: ?x) with ([WritePrefix []] ++ x).
      rewrite countPrefixes_app, countPrefixes_byteShape.
      unfold countPrefixes. simpl. lia.
    - reflexivity. }
  exists w', tr. split; [exact Hrun|]. split; [exact Hout|].
  split; [exact Hshape|]. split; [exact Hcount|].
  intros x b Ex Hb.
  destruct (trailing_snoc_visible x b Hb) as [Et Eu].
  assert (Hv : hasVisible (concat chunks) = true).
  { rewrite Ex, hasVisible_app. simpl. unfold visible. rewrite Hb.
    apply orb_true_r. }
  rewrite Hcount, Hshape, Hv, Ex, Et, Eu. split; reflexivity.
Qed.

(** C8, as the code has it: on end of stream or a closed pipe the
    worker writes the buffered line breaks and returns, with no log
    line; on any other read error it writes the buffered line breaks,
    calls [Warnf] once and returns: that call prints its one line when
    the logger's threshold is at most warn and nothing when the
    threshold is error. *)
Theorem C8_worker_exit (l : Logger) (lv : LogLevel) (st : scanState)
    (e : csi.ReadError) (rest : list csi.ReadResult) (w : world) :
  let flushed := {| loads := loads w;
                    stdout := stdout w ++ [WriteData (newline st)] |} in
  (cleanEnd e ->
   scanFrom E l lv st (csi.Err e :: rest) w = Some (Exited, flushed)) /\
  (forall msg, e = csi.OtherError msg ->
     levelGt (level l) LogLevelWarn = true ->
     scanFrom E l lv st (csi.Err e :: rest) w = Some (Exited, flushed)) /\
  (forall msg, e = csi.OtherError msg ->
     levelGt (level l) LogLevelWarn = false ->
     exists p w1,
       getPrefix E l LogLevelWarn flushed = Some (p, w1) /\
       scanFrom E l lv st (csi.Err e :: rest) w
         = Some (Exited,
                 {| loads := loads w1;
                    stdout := stdout w
                      ++ [WriteData (newline st);
                          WritePrefix p;
                          Printf (lit "error reading CSI sequence: "
                                    ++ msg ++ resetCode ++ [LF])] |})).
Proof.
  intro flushed. split; [|split].
  - intros [He|He]; subst e; reflexivity.
  - intros msg He Hlv. subst e. cbn [scanFrom finish].
    unfold bind, write, Warnf, logf. rewrite Hlv. reflexivity.
  - intros msg He Hlv. subst e.
    destruct (getPrefix_total E l LogLevelWarn
                flushed (margin_positive _)) as (p & w1 & Hp & Hs & _).
    exists p, w1. split; [exact Hp|].
    cbn [scanFrom finish].
    unfold bind, write, Warnf, logf, writePrefix. rewrite Hlv.
    subst flushed. unfold bind. rewrite Hp.
    cbv [write ret]. cbn [loads stdout]. rewrite Hs.
    cbn [stdout]. rewrite <- !app_assoc. reflexivity.
Qed.

End WithMargin.

End StreamClaims.

(** ** Formats *)

Lemma knownFormat_text (t : bytes) :
  Forall (fun b => Byte.eqb b "%"%byte = false) t -> knownFormat t [] = Some t.
Proof.
  induction 1 as [|b r Hb _ IH]; [reflexivity|].
  cbn [knownFormat]. now rewrite Hb, IH.
Qed.

Lemma knownFormat_expand_bounded (suffix : bytes) (n : nat) :
  Forall (fun b => Byte.eqb b "%"%byte = false) suffix ->
  forall format args line,
    (length format <= n)%nat ->
    expand format args = Some line ->
    knownFormat (format ++ suffix) args = Some (line ++ suffix).
Proof.
  intro Hs. induction n as [|n IH]; intros format args line Hlen Hex.
  - destruct format as [|b rest]; [|simpl in Hlen; lia].
    destruct args; [|discriminate]. injection Hex as <-.
    now apply knownFormat_text.
  - destruct format as [|b rest].
    + destruct args; [|discriminate]. injection Hex as <-.
      now apply knownFormat_text.
    + cbn [expand] in Hex. cbn [app knownFormat].
      destruct (Byte.eqb b "%").
      * destruct rest as [|v rest']; [discriminate|]. cbn [app].
        assert (Hl : (length rest' <= n)%nat) by (simpl in Hlen; lia).
        destruct (Byte.eqb v "%").
        -- destruct (expand rest' args) as [line'|] eqn:Er; [|discriminate].
           injection Hex as <-. now rewrite (IH rest' args line' Hl Er).
        -- destruct (Byte.eqb v "s"); [|discriminate].
           destruct args as [|a args']; [discriminate|].
           destruct (argText a) as [text|]; [|discriminate].
           destruct (expand rest' args') as [line'|] eqn:Er; [|discriminate].
           injection Hex as <-. rewrite (IH rest' args' line' Hl Er).
           cbn [option_map]. now rewrite app_assoc.
      * assert (Hl : (length rest <= n)%nat) by (simpl in Hlen; lia).
        destruct (expand rest args) as [line'|] eqn:Er; [|discriminate].
        injection Hex as <-. now rewrite (IH rest args line' Hl Er).
Qed.

(** On a format of text, [%%] and matched [%s] verbs, what [logf] has
    formatted is the message, then the reset code and the line feed. *)
Lemma Sprintf_expand (E : env) (format : bytes) (args : list arg)
    (line : bytes) :
  expand format args = Some line ->
  Sprintf E (format ++ resetCode ++ [LF]) args = line ++ resetCode ++ [LF].
Proof.
  intro Hex. unfold Sprintf.
  rewrite (knownFormat_expand_bounded (resetCode ++ [LF]) (length format)
             ltac:(repeat constructor) format args line (Nat.le_refl _) Hex).
  reflexivity.
Qed.

(** ** Level colours *)


(** ** Concrete runs *)



Lemma C1_cursor_column_witness :
  exists w' pend,
    processSegment (fixedEnv defaultSize true) infoLogger LogLevelInfo
      initialScan (csi.Control (cursorTo 5)) emptyWorld
      = Some ({| drawPrefix := false; newline := [] |}, w') /\
    stdout w' = stdout emptyWorld ++ pend
                  ++ bytewise (csiIntro
                                 ++ fmtInt (5 + margin (sizeAt (fixedEnv defaultSize true)
                                                          (loads emptyWorld)) + 2)
                                 ++ ["G"%byte]) /\
    dataBytes pend = newline initialScan.
Proof.
  apply (C1_cursor_column (fixedEnv defaultSize true)).
  - intro t. simpl. lia.
  - reflexivity.
  - reflexivity.
  - unfold MinInt. lia.
  - unfold MaxInt. simpl. lia.
Defined.

(** C1 fails as stated: with the single parameter [MaxInt] and margin 16 the
    addition wraps around, and the column written is negative. *)
Lemma C1_column_overflow :
  exists w' p,
    processSegment (fixedEnv defaultSize true) infoLogger LogLevelInfo
      initialScan (csi.Control (cursorTo MaxInt)) emptyWorld
      = Some ({| drawPrefix := false; newline := [] |}, w') /\
    stdout w' = WritePrefix p :: bytewise (ESC :: lit "[-9223372036854775791G") /\
    ESC :: lit "[-9223372036854775791G"
      <> csiIntro ++ fmtInt (MaxInt + 16 + 2) ++ ["G"%byte].
Proof.
  eexists; eexists. split; [vm_compute; reflexivity|].
  split; [reflexivity|]. vm_compute. discriminate.
Qed.

Lemma C2_erase_in_line_witness :
  (2 = 1 \/ 2 = 2 ->
   exists pre w1 st' w' tr,
     getPrefix (fixedEnv defaultSize true) infoLogger LogLevelInfo
       emptyWorld = Some (pre, w1) /\
     intercept (fixedEnv defaultSize true) infoLogger LogLevelInfo
       (csi.Control (eraseLine 2)) emptyWorld
       = Some (saveCursor ++ csi.String (eraseLine 2) ++ toColumnOne
                 ++ pre ++ restoreCursor, w1) /\
     processSegment (fixedEnv defaultSize true) infoLogger
       LogLevelInfo initialScan (csi.Control (eraseLine 2)) emptyWorld
       = Some (st', w') /\
     stdout w' = stdout emptyWorld ++ tr /\
     dataBytes tr ++ newline st'
       = newline initialScan ++ saveCursor ++ csi.String (eraseLine 2)
           ++ toColumnOne ++ pre ++ restoreCursor /\
     st' = {| drawPrefix := false; newline := [] |} /\
     dataBytes tr
       = newline initialScan ++ saveCursor ++ csi.String (eraseLine 2)
           ++ toColumnOne ++ pre ++ restoreCursor /\
     shape tr
       = (if drawPrefix initialScan then [WritePrefix []] else [])
           ++ flat_map breakShape (newline initialScan)
           ++ flat_map byteShape
                (saveCursor ++ csi.String (eraseLine 2) ++ toColumnOne
                   ++ pre ++ restoreCursor) /\
     (Forall (fun b => isNewline b = false) (csi.String (eraseLine 2)) ->
      Forall (fun b => isNewline b = false) pre ->
      exists pend,
        tr = pend ++ bytewise (saveCursor ++ csi.String (eraseLine 2)
                                 ++ toColumnOne ++ pre ++ restoreCursor) /\
        dataBytes pend = newline initialScan)) /\
  (2 = 0 ->
   intercept (fixedEnv defaultSize true) infoLogger LogLevelInfo
     (csi.Control (eraseLine 2)) emptyWorld
     = Some (csi.String (eraseLine 2), emptyWorld) /\
   processSegment (fixedEnv defaultSize true) infoLogger LogLevelInfo
     initialScan (csi.Control (eraseLine 2)) emptyWorld
     = processSegment (fixedEnv defaultSize true) infoLogger
         LogLevelInfo initialScan (csi.Text (csi.String (eraseLine 2)))
         emptyWorld /\
   exists st' w' tr,
     processSegment (fixedEnv defaultSize true) infoLogger LogLevelInfo
       initialScan (csi.Control (eraseLine 2)) emptyWorld = Some (st', w') /\
     stdout w' = stdout emptyWorld ++ tr /\
     dataBytes tr ++ newline st'
       = newline initialScan ++ csi.String (eraseLine 2) /\
     (csi.String (eraseLine 2) <> [] ->
      Forall (fun b => isNewline b = false) (csi.String (eraseLine 2)) ->
      exists pend,
        tr = pend ++ bytewise (csi.String (eraseLine 2)) /\
        dataBytes pend = newline initialScan /\
        st' = {| drawPrefix := false; newline := [] |})).
Proof.
  apply (C2_erase_in_line (fixedEnv defaultSize true)).
  - intro t. simpl. lia.
  - reflexivity.
  - reflexivity.
Defined.

Lemma C4_passthrough_witness :
  processSegment (fixedEnv defaultSize true) infoLogger LogLevelInfo
    initialScan (csi.Control boldRed) emptyWorld
  = processSegment (fixedEnv defaultSize true) infoLogger LogLevelInfo
      initialScan (csi.Text (csi.String boldRed)) emptyWorld /\
  exists st' w' tr,
    processSegment (fixedEnv defaultSize true) infoLogger LogLevelInfo
      initialScan (csi.Control boldRed) emptyWorld = Some (st', w') /\
    stdout w' = stdout emptyWorld ++ tr /\
    dataBytes tr ++ newline st' = newline initialScan ++ csi.String boldRed /\
    (csi.String boldRed <> [] ->
     Forall (fun b => isNewline b = false) (csi.String boldRed) ->
     exists pend,
       tr = pend ++ bytewise (csi.String boldRed) /\
       dataBytes pend = newline initialScan /\
       st' = {| drawPrefix := false; newline := [] |}).
Proof.
  apply (C4_passthrough (fixedEnv defaultSize true)).
  - intro t. simpl. lia.
  - right. right. exists [1; 31]. split; [reflexivity|simpl; lia].
Defined.

Lemma C3_prefix_count_witness :
  exists w' tr,
    writerScanner (fixedEnv defaultSize true) infoLogger LogLevelInfo
      (textReads [lit "a" ++ [LF]; lit "b"] ++ [csi.Err csi.EOF]) emptyWorld
      = Some (Exited, w') /\
    stdout w' = stdout emptyWorld ++ tr /\
    shape tr =
      (if hasVisible (concat [lit "a" ++ [LF]; lit "b"])
       then WritePrefix []
              :: flat_map byteShape
                   (upToLastVisible (concat [lit "a" ++ [LF]; lit "b"]))
       else [])
      ++ [WriteData (trailingBreaks (concat [lit "a" ++ [LF]; lit "b"]))] /\
    countPrefixes tr =
      (if hasVisible (concat [lit "a" ++ [LF]; lit "b"])
       then S (countBreaks (upToLastVisible (concat [lit "a" ++ [LF]; lit "b"])))
       else 0%nat) /\
    (forall x b,
        concat [lit "a" ++ [LF]; lit "b"] = x ++ [b] -> isNewline b = false ->
        countPrefixes tr = S (countBreaks (concat [lit "a" ++ [LF]; lit "b"])) /\
        shape tr = WritePrefix []
                     :: flat_map byteShape (concat [lit "a" ++ [LF]; lit "b"])
                     ++ [WriteData []]).
Proof.
  apply (C3_prefix_count (fixedEnv defaultSize true)).
  - intro t. simpl. lia.
  - left. reflexivity.
Defined.

(** C3 fails as stated: the text [a], line feed, has one newline and gets
    one prefix, the trailing line feed being flushed bare at the end of the
    stream; an empty text gets none; and in [a], carriage return, line feed,
    [b], with its one newline, each of the two line-break bytes is followed
    by a prefix, three in all. *)
Lemma C3_prefix_miscount :
  (exists w',
     writerScanner (fixedEnv defaultSize true) infoLogger LogLevelInfo
       (textReads [lit "a" ++ [LF]] ++ [csi.Err csi.EOF]) emptyWorld
       = Some (Exited, w') /\
     length (filter (Byte.eqb LF) (lit "a" ++ [LF])) = 1%nat /\
     countPrefixes (stdout w') = 1%nat) /\
  (exists w',
     writerScanner (fixedEnv defaultSize true) infoLogger LogLevelInfo
       (textReads [] ++ [csi.Err csi.EOF]) emptyWorld = Some (Exited, w') /\
     countPrefixes (stdout w') = 0%nat) /\
  (exists w',
     writerScanner (fixedEnv defaultSize true) infoLogger LogLevelInfo
       (textReads [lit "a" ++ [CR; LF] ++ lit "b"] ++ [csi.Err csi.EOF])
       emptyWorld = Some (Exited, w') /\
     length (filter (Byte.eqb LF) (lit "a" ++ [CR; LF] ++ lit "b")) = 1%nat /\
     countPrefixes (stdout w') = 3%nat).
Proof.
  split; [|split]; eexists; repeat split; vm_compute; reflexivity.
Qed.

Lemma C8_worker_exit_witness :
  let st := {| drawPrefix := false; newline := [LF] |} in
  let e := csi.OtherError (lit "boom") in
  let flushed := {| loads := loads emptyWorld;
                    stdout := stdout emptyWorld ++ [WriteData (newline st)] |} in
  (cleanEnd e ->
   scanFrom (fixedEnv defaultSize true) infoLogger LogLevelInfo st
     (csi.Err e :: []) emptyWorld = Some (Exited, flushed)) /\
  (forall msg, e = csi.OtherError msg ->
     levelGt (level infoLogger) LogLevelWarn = true ->
     scanFrom (fixedEnv defaultSize true) infoLogger LogLevelInfo st
       (csi.Err e :: []) emptyWorld = Some (Exited, flushed)) /\
  (forall msg, e = csi.OtherError msg ->
     levelGt (level infoLogger) LogLevelWarn = false ->
     exists p w1,
       getPrefix (fixedEnv defaultSize true) infoLogger LogLevelWarn
         flushed = Some (p, w1) /\
       scanFrom (fixedEnv defaultSize true) infoLogger LogLevelInfo st
         (csi.Err e :: []) emptyWorld
         = Some (Exited,
                 {| loads := loads w1;
                    stdout := stdout emptyWorld
                      ++ [WriteData (newline st);
                          WritePrefix p;
                          Printf (lit "error reading CSI sequence: "
                                    ++ msg ++ resetCode ++ [LF])] |})).
Proof.
  apply (C8_worker_exit (fixedEnv defaultSize true)).
  intro t. simpl. lia.
Defined.

(** C8 fails as stated: a logger whose threshold is error drops the warning,
    so a failed read ends the worker with the flush alone and no log line. *)
Lemma C8_warning_suppressed :
  exists w',
    writerScanner (fixedEnv defaultSize true) errorLogger LogLevelInfo
      [csi.Err (csi.OtherError (lit "boom"))] emptyWorld = Some (Exited, w') /\
    stdout w' = [WriteData []] /\
    filter isPrintf (stdout w') = [].
Proof.
  eexists. split; [vm_compute; reflexivity|]. split; reflexivity.
Qed.


(** * Further properties of the package *)

(** ** Level names *)

Lemma bytesEqb_eq (a b : bytes) : bytesEqb a b = true <-> a = b.
Proof.
  revert b. induction a as [|x a IH]; intros [|y b]; simpl; try easy.
  rewrite andb_true_iff, IH. split.
  - intros [Hx ->]. now rewrite (byte_dec_bl _ _ Hx).
  - intro H. injection H as -> ->. split; [now apply byte_dec_lb|reflexivity].
Qed.

(** The name of a level parses back to the level, whatever the receiver
    held. *)
Theorem LogLevel_round_trip (l0 l : LogLevel) :
  UnmarshalText l0 (LogLevel_String l) = (l, None).
Proof. destruct l; reflexivity. Qed.

(** [UnmarshalText] accepts the six level names and nothing else: a text is
    either the name of the level it sets, or it is no level's name and the
    call returns the error for that text and leaves the receiver as it
    was. *)
Theorem UnmarshalText_names_only (l0 : LogLevel) (text : bytes) :
  (exists l, text = LogLevel_String l /\ UnmarshalText l0 text = (l, None)) \/
  ((forall l, text <> LogLevel_String l) /\
   UnmarshalText l0 text = (l0, Some (invalidLogLevel text))).
Proof.
  unfold UnmarshalText.
  destruct (bytesEqb text (lit "trace")) eqn:E0;
    [apply bytesEqb_eq in E0; left; now exists LogLevelTrace|].
  destruct (bytesEqb text (lit "debug")) eqn:E1;
    [apply bytesEqb_eq in E1; left; now exists LogLevelDebug|].
  destruct (bytesEqb text (lit "info")) eqn:E2;
    [apply bytesEqb_eq in E2; left; now exists LogLevelInfo|].
  destruct (bytesEqb text (lit "notice")) eqn:E3;
    [apply bytesEqb_eq in E3; left; now exists LogLevelNotice|].
  destruct (bytesEqb text (lit "warn")) eqn:E4;
    [apply bytesEqb_eq in E4; left; now exists LogLevelWarn|].
  destruct (bytesEqb text (lit "error")) eqn:E5;
    [apply bytesEqb_eq in E5; left; now exists LogLevelError|].
  right. split; [|reflexivity].
  intros l H. subst text.
  destruct l; vm_compute in E0, E1, E2, E3, E4, E5; discriminate.
Qed.

(** Outside the six constants the round trip fails: the name [String] gives
    a level of any other number is rejected by [UnmarshalText]. *)
Theorem levelName_outside_rejected (l0 : LogLevel) (n : Z) :
  n < 0 \/ 5 < n ->
  UnmarshalText l0 (levelName n) = (l0, Some (invalidLogLevel (levelName n))).
Proof.
  intro Hn. unfold levelName.
  replace (n =? 0) with false by (symmetry; apply Z.eqb_neq; lia).
  replace (n =? 1) with false by (symmetry; apply Z.eqb_neq; lia).
  replace (n =? 2) with false by (symmetry; apply Z.eqb_neq; lia).
  replace (n =? 3) with false by (symmetry; apply Z.eqb_neq; lia).
  replace (n =? 4) with false by (symmetry; apply Z.eqb_neq; lia).
  replace (n =? 5) with false by (symmetry; apply Z.eqb_neq; lia).
  reflexivity.
Qed.

Lemma levelName_outside_rejected_witness :
  UnmarshalText LogLevelWarn (levelName 7)
  = (LogLevelWarn, Some (invalidLogLevel (levelName 7))).
Proof. apply levelName_outside_rejected. right. lia. Defined.

(** ** Thresholds *)

(** Which messages a new logger drops: none with [Trace] set; trace
    messages alone with [Debug] set and [Trace] not, whatever the configured
    level; otherwise those below the configured level. *)
Theorem NewLogger_threshold (config : LogConfig) (lv : LogLevel) :
  levelGt (level (NewLogger config)) lv = true <->
  Trace config = false /\
  ((Debug config = true /\ lv = LogLevelTrace) \/
   (Debug config = false /\ levelNum lv < levelNum (Level config))).
Proof.
  unfold NewLogger, levelGt. cbn [level].
  destruct (Trace config), (Debug config); rewrite Z.ltb_lt.
  - destruct lv; simpl; split; try lia; intros [H _]; discriminate.
  - destruct lv; simpl; split; try lia; intros [H _]; discriminate.
  - split.
    + intro H. split; [reflexivity|]. left. split; [reflexivity|].
      destruct lv; simpl in H; try lia; reflexivity.
    + intros [_ [[_ ->]|[H _]]]; [simpl; lia|discriminate].
  - split.
    + intro H. split; [reflexivity|]. right. now split.
    + intros [_ [[H _]|[_ H]]]; [discriminate|exact H].
Qed.

(** ** Labels and prefixes *)

Lemma ReplaceAll_length (s : bytes) :
  length (ReplaceAll s "%"%byte ["%"%byte; "%"%byte])
  = (length s + percents s)%nat.
Proof.
  unfold ReplaceAll, percents. induction s as [|b r IH]; simpl; [easy|].
  rewrite length_app, IH. destruct (Byte.eqb b "%"); simpl; lia.
Qed.

Lemma rawLabel_length (m : Z) (s : bytes) :
  1 <= m ->
  Z.of_nat (length (rawLabel m s))
  = if m <? Z.of_nat (length s) then m + 2 else m.
Proof.
  intro Hm. unfold rawLabel.
  destruct (m <? Z.of_nat (length s)) eqn:Hcmp.
  - apply Z.ltb_lt in Hcmp. rewrite length_app, length_skipn.
    change (length ellipsis) with 3%nat. lia.
  - apply Z.ltb_ge in Hcmp. rewrite length_app, repeat_length. lia.
Qed.

(** The byte length of a label, for any scope: the margin, two more when
    the scope was cut (the ellipsis is three bytes long), and one more for
    every percent sign kept, which is doubled. *)
Theorem label_byte_length (E : env) (l : Logger) (w : world) :
  let m := margin (sizeAt E (loads w)) in
  1 <= m ->
  exists label,
    getScope E l w = Some (label, tick w) /\
    Z.of_nat (length label)
    = (if m <? Z.of_nat (length (scope l)) then m + 2 else m)
      + Z.of_nat (percents (rawLabel m (scope l))).
Proof.
  intros m Hm. eexists. split; [exact (getScope_value E l w Hm)|].
  rewrite ReplaceAll_length, Nat2Z.inj_add. fold m.
  now rewrite (rawLabel_length m (scope l) Hm).
Qed.

Lemma label_byte_length_witness :
  exists label,
    getScope (fixedEnv (mkSize 4 80 25) true)
      (mkLogger LogLevelInfo (lit "100%/main.go")) emptyWorld
      = Some (label, tick emptyWorld) /\
    Z.of_nat (length label)
    = (if 4 <? Z.of_nat (length (lit "100%/main.go")) then 4 + 2 else 4)
      + Z.of_nat (percents (rawLabel 4 (lit "100%/main.go"))).
Proof.
  apply (label_byte_length (fixedEnv (mkSize 4 80 25) true)
           (mkLogger LogLevelInfo (lit "100%/main.go")) emptyWorld).
  simpl. lia.
Defined.

(** The label of a logger without a scope, as [NewLogger] returns it, is
    blank and exactly as wide as the margin; computing it cannot panic,
    not even at margin zero. *)
Theorem root_label_blank (E : env) (config : LogConfig) (w : world) :
  0 <= margin (sizeAt E (loads w)) ->
  getScope E (NewLogger config) w
  = Some (repeat " "%byte (Z.to_nat (margin (sizeAt E (loads w)))), tick w).
Proof.
  intro Hm. unfold getScope, Load, bind at 1. cbn [NewLogger scope length].
  replace (margin (sizeAt E (loads w)) <? Z.of_nat 0) with false
    by (symmetry; apply Z.ltb_ge; simpl; lia).
  unfold Repeat.
  replace (margin (sizeAt E (loads w)) - Z.of_nat 0 <? 0) with false
    by (symmetry; apply Z.ltb_ge; simpl; lia).
  unfold bind, ret. cbn [app]. rewrite repeat_single.
  rewrite ReplaceAll_absent.
  - simpl (Z.of_nat 0). now rewrite Z.sub_0_r.
  - apply Forall_forall. intros b Hb. apply repeat_spec in Hb. now subst b.
Qed.

Lemma root_label_blank_witness :
  getScope (fixedEnv (mkSize 0 80 25) true)
    (NewLogger (mkConfig LogLevelInfo false false)) emptyWorld
  = Some (repeat " "%byte
            (Z.to_nat (margin (sizeAt (fixedEnv (mkSize 0 80 25) true)
                                 (loads emptyWorld)))), tick emptyWorld).
Proof.
  apply (root_label_blank (fixedEnv (mkSize 0 80 25) true)).
  simpl. lia.
Defined.

Lemma ReplaceAll_nonempty (s : bytes) :
  s <> [] -> ReplaceAll s "%"%byte ["%"%byte; "%"%byte] <> [].
Proof.
  destruct s as [|b r]; [easy|]. intros _. unfold ReplaceAll. simpl.
  destruct (Byte.eqb b "%"); discriminate.
Qed.

Lemma rawLabel_nonempty (m : Z) (s : bytes) : 1 <= m -> rawLabel m s <> [].
Proof.
  intros Hm H. pose proof (rawLabel_length m s Hm) as Hl. rewrite H in Hl.
  simpl in Hl. destruct (m <? Z.of_nat (length s)); lia.
Qed.

Lemma getPrefix_wellFormed (E : env) (l : Logger) (lv : LogLevel) (w : world) :
  1 <= margin (sizeAt E (loads w)) ->
  levelGt (level l) lv = false ->
  exists p,
    getPrefix E l lv w = Some (p, tick w) /\ wellFormedPrefix E l lv p.
Proof.
  intros Hm Hlv. unfold getPrefix. rewrite Hlv.
  rewrite (bind_some _ _ _ _ _ (getScope_value E l w Hm)).
  pose proof (ReplaceAll_nonempty _ (rawLabel_nonempty _ (scope l) Hm)) as Hne.
  destruct (ReplaceAll _ _ _) as [|b r] eqn:El; [contradiction|].
  eexists. split; [reflexivity|].
  exists (loads w), (b :: r). rewrite El. repeat split. discriminate.
Qed.

(** What [logf] does with the threshold: a message below it leaves the
    world exactly as it was, no size loaded and nothing written; any other
    message loads the size once and writes a well-formed prefix and then
    what [fmt] makes of the format, the reset code and the line feed taken
    together, with the operands; for a format of text, [%%] and matched
    [%s] verbs that is the message, the reset code and a line feed. *)
Theorem logf_threshold (E : env) (l : Logger) (lv : LogLevel) (format : bytes)
    (args : list arg) (w : world) :
  1 <= margin (sizeAt E (loads w)) ->
  exists w',
    logf E l lv format args w = Some (tt, w') /\
    (levelNum lv < levelNum (level l) -> w' = w) /\
    (levelNum (level l) <= levelNum lv ->
     exists p,
       wellFormedPrefix E l lv p /\
       loads w' = S (loads w) /\
       stdout w' = stdout w
                     ++ [WritePrefix p;
                         Printf (Sprintf E (format ++ resetCode ++ [LF]) args)] /\
       (forall msg, expand format args = Some msg ->
                    Sprintf E (format ++ resetCode ++ [LF]) args
                    = msg ++ resetCode ++ [LF])).
Proof.
  intro Hm. unfold logf, writePrefix.
  destruct (levelGt (level l) lv) eqn:Hlv; unfold levelGt in Hlv.
  - apply Z.ltb_lt in Hlv. exists w. split; [reflexivity|].
    split; [reflexivity|]. lia.
  - destruct (getPrefix_wellFormed E l lv w Hm) as (p & Hp & Hwf);
      [exact Hlv|].
    apply Z.ltb_ge in Hlv. unfold bind. rewrite Hp. cbv [write ret].
    eexists. split; [reflexivity|]. split; [lia|].
    intros _. exists p. split; [exact Hwf|]. cbn [loads stdout tick].
    split; [reflexivity|]. split; [now rewrite <- app_assoc|].
    intros msg Hex. now apply Sprintf_expand.
Qed.

Lemma logf_threshold_witness :
  exists w',
    logf (fixedEnv defaultSize true) infoLogger LogLevelDebug (lit "quiet %s")
      [ArgString (lit "please")] emptyWorld = Some (tt, w') /\
    (levelNum LogLevelDebug < levelNum (level infoLogger) -> w' = emptyWorld) /\
    (levelNum (level infoLogger) <= levelNum LogLevelDebug ->
     exists p,
       wellFormedPrefix (fixedEnv defaultSize true) infoLogger LogLevelDebug p /\
       loads w' = S (loads emptyWorld) /\
       stdout w' = stdout emptyWorld
                     ++ [WritePrefix p;
                         Printf (Sprintf (fixedEnv defaultSize true)
                                   (lit "quiet %s" ++ resetCode ++ [LF])
                                   [ArgString (lit "please")])] /\
       (forall msg,
           expand (lit "quiet %s") [ArgString (lit "please")] = Some msg ->
           Sprintf (fixedEnv defaultSize true)
             (lit "quiet %s" ++ resetCode ++ [LF]) [ArgString (lit "please")]
           = msg ++ resetCode ++ [LF])).
Proof.
  apply (logf_threshold (fixedEnv defaultSize true)).
  simpl. lia.
Defined.

(** ** Terminal sizes *)

Lemma watcherStores_successes (signals : list (option (Z * Z))) :
  watcherStores signals = sizesOf (successes signals).
Proof.
  induction signals as [|[[w h]|] rest IH]; simpl; [reflexivity| |exact IH].
  now rewrite IH.
Qed.

Lemma last_cons {A : Type} (x d : A) (l : list A) : last (x :: l) d = last l x.
Proof.
  revert x d. induction l as [|y l IH]; intros x d; [reflexivity|].
  change (last (x :: y :: l) d) with (last (y :: l) d).
  now rewrite !IH.
Qed.

(** The size in force after the watcher has handled its signals is the one
    of the last query that succeeded, and the initial one when none did:
    a failed query changes nothing, a successful one replaces the size
    whatever it was; and there is one store per successful query, besides
    the initial one. *)
Theorem currentSize_last_success (init : option (Z * Z))
    (signals : list (option (Z * Z))) :
  currentSize init signals
    = last (sizesOf (successes signals)) (initialSize init) /\
  currentSize init (signals ++ [None]) = currentSize init signals /\
  (forall w h, currentSize init (signals ++ [Some (w, h)]) = sizeOf w h) /\
  length (syncTermSize init signals) = S (length (successes signals)).
Proof.
  assert (H : forall sigs, currentSize init sigs
                = last (sizesOf (successes sigs)) (initialSize init)).
  { intro sigs. unfold currentSize, syncTermSize.
    now rewrite last_cons, watcherStores_successes. }
  split; [apply H|]. split; [|split].
  - rewrite !H. unfold successes. rewrite flat_map_app. simpl.
    now rewrite app_nil_r.
  - intros w h. rewrite H. unfold successes, sizesOf.
    rewrite flat_map_app, map_app. simpl. now rewrite last_last.
  - unfold syncTermSize. simpl. rewrite watcherStores_successes.
    unfold sizesOf. now rewrite length_map.
Qed.

(** The margin is a fifth of the width, rounded down, for terminals of 80
    columns and more, and the fixed 16 columns for terminals of less than
    85; it never exceeds 13107. *)
Theorem margin_fifth (w h : Z) :
  0 <= w < 65536 ->
  (w < 85 -> margin (sizeOf w h) = 16) /\
  (80 <= w ->
   margin (sizeOf w h) = w / 5 /\
   5 * margin (sizeOf w h) <= w < 5 * margin (sizeOf w h) + 5) /\
  margin (sizeOf w h) <= 13107.
Proof.
  intro Hw. destruct (sizeOf_in_range w h Hw) as [_ Em]. rewrite Em.
  assert (H5 : 5 * (w / 5) <= w) by (apply Z.mul_div_le; lia).
  assert (H6 : w < 5 * (w / 5) + 5).
  { pose proof (Z.mul_succ_div_gt w 5 ltac:(lia)). lia. }
  repeat split; lia.
Qed.

Lemma margin_fifth_witness :
  (120 < 85 -> margin (sizeOf 120 40) = 16) /\
  (80 <= 120 ->
   margin (sizeOf 120 40) = 120 / 5 /\
   5 * margin (sizeOf 120 40) <= 120 < 5 * margin (sizeOf 120 40) + 5) /\
  margin (sizeOf 120 40) <= 13107.
Proof. apply margin_fifth. lia. Defined.

(** ** The size of the pseudo-terminal *)

(** On a terminal of at least 17 columns the pseudo-terminal gets the
    columns right of the margin and of one more column: its width, the
    margin and one add up to the width of the terminal, and it has the
    terminal's rows.  The first size [Exec] sets is that one when no resize
    falls between its two loads. *)
Theorem pty_fits_beside_margin (E : env) (w h : Z) (wd : world) :
  17 <= w < 65536 ->
  0 <= h < 65536 ->
  let size := sizeOf w h in
  Rows (resizedWinsize size) = h /\
  0 <= Cols (resizedWinsize size) /\
  Cols (resizedWinsize size) + margin size + 1 = width size /\
  (sizeAt E (loads wd) = size -> sizeAt E (S (loads wd)) = size ->
   initialWinsize E wd = Some (resizedWinsize size, tick (tick wd))).
Proof.
  intros Hw Hh size. subst size.
  destruct (sizeOf_storedOK w h ltac:(lia)) as (Em & H16 & Hlt).
  destruct (sizeOf_in_range w h ltac:(lia)) as [Ew _].
  assert (Hr : height (sizeOf w h) = h)
    by (unfold sizeOf, uint16; cbn [height]; apply Z.mod_small; lia).
  assert (Hm : margin (sizeOf w h) < width (sizeOf w h)) by (apply Hlt; lia).
  assert (Hc : Cols (resizedWinsize (sizeOf w h))
               = width (sizeOf w h) - margin (sizeOf w h) - 1).
  { unfold resizedWinsize, winsizeFor. cbn [Cols].
    generalize dependent (sizeOf w h). intros sz Em H16 Hlt Ew Hr Hm.
    unfold uint16.
    rewrite (Z.mod_small (margin sz + 1)) by lia.
    rewrite Z.mod_small by lia. lia. }
  rewrite Hc. split; [exact Hr|]. split; [lia|]. split; [lia|].
  intros H1 H2. unfold initialWinsize, Load, bind, ret. cbn [loads].
  now rewrite H1, H2.
Qed.

Lemma pty_fits_beside_margin_witness :
  let size := sizeOf 120 40 in
  Rows (resizedWinsize size) = 40 /\
  0 <= Cols (resizedWinsize size) /\
  Cols (resizedWinsize size) + margin size + 1 = width size /\
  (sizeAt (fixedEnv (sizeOf 120 40) true) (loads emptyWorld) = size ->
   sizeAt (fixedEnv (sizeOf 120 40) true) (S (loads emptyWorld)) = size ->
   initialWinsize (fixedEnv (sizeOf 120 40) true) emptyWorld
   = Some (resizedWinsize size, tick (tick emptyWorld))).
Proof.
  apply (pty_fits_beside_margin (fixedEnv (sizeOf 120 40) true) 120 40
           emptyWorld); lia.
Defined.

(** On a terminal of 16 columns or fewer the subtraction wraps around in
    [uint16]: the pseudo-terminal is set to more than 65000 columns. *)
Theorem pty_columns_wrap (w h : Z) :
  0 <= w <= 16 ->
  Cols (resizedWinsize (sizeOf w h)) = 65519 + w.
Proof.
  intro Hw.
  destruct (sizeOf_in_range w h ltac:(lia)) as [Ew Em].
  unfold resizedWinsize, winsizeFor. cbn [Cols]. rewrite Ew, Em.
  assert (Hq : w / 5 < 4) by (apply Z.div_lt_upper_bound; lia).
  assert (H0 : 0 <= w / 5) by (apply Z.div_pos; lia).
  rewrite Z.max_l by lia. unfold uint16.
  rewrite (Z.mod_small (16 + 1)) by lia.
  replace (w - (16 + 1)) with (65519 + w + (-1) * 65536) by lia.
  rewrite Z.mod_add by lia. apply Z.mod_small. lia.
Qed.

Lemma pty_columns_wrap_witness :
  Cols (resizedWinsize (sizeOf 10 24)) = 65519 + 10.
Proof. apply pty_columns_wrap. lia. Defined.

(** ** The lines of a command *)

Lemma splitLines_nonempty (s : bytes) : splitLines s <> [].
Proof.
  destruct s as [|b r]; simpl; [discriminate|].
  destruct (Byte.eqb b LF); [discriminate|].
  destruct (splitLines r); discriminate.
Qed.

Lemma joinLines_cons (b : byte) (line : bytes) (rest : list bytes) :
  joinLines ((b :: line) :: rest) = b :: joinLines (line :: rest).
Proof. destruct rest; reflexivity. Qed.

(** Splitting a command at its line feeds loses nothing: joining the lines
    with line feeds gives the command back; there is one line more than
    there are line feeds, so at least one; and no line holds a line feed. *)
Lemma splitLines_join (s : bytes) :
  joinLines (splitLines s) = s /\
  length (splitLines s) = S (countLF s) /\
  Forall noLF (splitLines s).
Proof.
  unfold countLF. induction s as [|b r (IHj & IHl & IHn)].
  - simpl. repeat split. repeat constructor.
  - cbn [splitLines filter]. destruct (Byte.eqb b LF) eqn:Hb.
    + apply byte_dec_bl in Hb. subst b. split; [|split].
      * pose proof (splitLines_nonempty r) as Hne.
        destruct (splitLines r) as [|x xs] eqn:Er; [contradiction|].
        cbn [joinLines app]. now rewrite <- IHj.
      * simpl. now rewrite IHl.
      * constructor; [constructor|exact IHn].
    + pose proof (splitLines_nonempty r) as Hne.
      destruct (splitLines r) as [|line rest] eqn:Er; [contradiction|].
      split; [|split].
      * rewrite joinLines_cons. now rewrite IHj.
      * exact IHl.
      * inversion_clear IHn as [|? ? Hline Hrest].
        constructor; [|exact Hrest].
        constructor; [|exact Hline].
        intro H. subst b. discriminate.
Qed.

Section CommandLines.

Variable E : env.
Variable l : Logger.
Hypothesis margin_positive : forall t, 1 <= margin (sizeAt E t).

Lemma logf_trace (lv : LogLevel) (format : bytes) (args : list arg)
    (msg : bytes) (w : world) :
  levelGt (level l) lv = false ->
  expand format args = Some msg ->
  exists p w',
    wellFormedPrefix E l lv p /\
    logf E l lv format args w = Some (tt, w') /\
    stdout w' = stdout w ++ [WritePrefix p; Printf (msg ++ resetCode ++ [LF])].
Proof.
  intros Hlv Hex.
  destruct (getPrefix_wellFormed E l lv w (margin_positive _) Hlv)
    as (p & Hp & Hwf).
  exists p. eexists. split; [exact Hwf|].
  unfold logf, writePrefix. rewrite Hlv.
  rewrite (Sprintf_expand E format args msg Hex).
  unfold bind. rewrite Hp.
  cbv [write ret]. split; [reflexivity|].
  cbn [stdout tick]. now rewrite <- app_assoc.
Qed.

Lemma expand_one (pre line : bytes) :
  Forall (fun b => Byte.eqb b "%"%byte = false) pre ->
  expand (pre ++ lit "%s") [ArgString line] = Some (pre ++ line).
Proof.
  induction 1 as [|b r Hb _ IH].
  - cbn. now rewrite app_nil_r.
  - cbn [app expand]. now rewrite Hb, IH.
Qed.

Lemma noticeLines_rest (lines : list bytes) (i : nat) (w : world) :
  levelGt (level l) LogLevelNotice = false ->
  exists w' tr,
    noticeLines E l (S i) lines w = Some (tt, w') /\
    stdout w' = stdout w ++ tr /\
    shape tr = flat_map lineShape (map (fun line => lit "  " ++ line) lines) /\
    prefixesSatisfy (wellFormedPrefix E l LogLevelNotice) tr.
Proof.
  intro Hlv. revert i w. induction lines as [|line rest IH]; intros i w.
  - exists w, []. simpl. rewrite app_nil_r. repeat split. constructor.
  - cbn [noticeLines Nat.eqb]. unfold Noticef.
    destruct (logf_trace LogLevelNotice (lit "  %s") [ArgString line]
                (lit "  " ++ line) w Hlv
                (expand_one (lit "  ") line ltac:(repeat constructor)))
      as (p & w1 & Hwf & Hrun & Hout).
    rewrite (bind_some _ _ _ _ _ Hrun).
    destruct (IH (S i) w1) as (w' & tr & Hrest & Hout' & Hsh & Hsat).
    exists w', ([WritePrefix p; Printf ((lit "  " ++ line) ++ resetCode ++ [LF])]
                  ++ tr).
    split; [exact Hrest|]. split; [|split].
    + rewrite Hout', Hout. now rewrite <- app_assoc.
    + unfold shape in *. rewrite map_app, Hsh. reflexivity.
    + unfold prefixesSatisfy in *. apply Forall_app. split; [|exact Hsat].
      repeat constructor. exact Hwf.
Qed.

(** What [Exec] prints of its command: with a threshold above notice,
    nothing; otherwise one line for each line of the command, each with a
    prefix, the first line after a dollar sign and a space, every other
    after two spaces; that is one line more than the command has line
    feeds. *)
Theorem logCommand_lines (command : bytes) (w : world) :
  length (commandLines command) = S (countLF command) /\
  (levelGt (level l) LogLevelNotice = true ->
   logCommand E l command w = Some (tt, w)) /\
  (levelGt (level l) LogLevelNotice = false ->
   exists w' tr,
     logCommand E l command w = Some (tt, w') /\
     stdout w' = stdout w ++ tr /\
     shape tr = flat_map lineShape (commandLines command) /\
     prefixesSatisfy (wellFormedPrefix E l LogLevelNotice) tr).
Proof.
  split.
  { destruct (splitLines_join command) as (_ & Hlen & _).
    rewrite <- Hlen. unfold commandLines.
    destruct (splitLines command); [reflexivity|].
    simpl. now rewrite length_map. }
  unfold logCommand, commandLines. split.
  - intro Hlv. generalize 0%nat. revert w.
    induction (splitLines command) as [|line rest IH]; intros w i;
      [reflexivity|].
    cbn [noticeLines]. unfold Noticef, logf at 1. rewrite Hlv.
    unfold bind at 1. cbn [ret]. apply IH.
  - intro Hlv. destruct (splitLines command) as [|first rest].
    + exists w, []. simpl. rewrite app_nil_r. repeat split. constructor.
    + cbn [noticeLines Nat.eqb]. unfold Noticef.
      destruct (logf_trace LogLevelNotice (lit "$ %s") [ArgString first]
                  (lit "$ " ++ first) w Hlv
                  (expand_one (lit "$ ") first ltac:(repeat constructor)))
        as (p & w1 & Hwf & Hrun & Hout).
      rewrite (bind_some _ _ _ _ _ Hrun).
      destruct (noticeLines_rest rest 0 w1 Hlv)
        as (w' & tr & Hrest & Hout' & Hsh & Hsat).
      exists w', ([WritePrefix p;
                   Printf ((lit "$ " ++ first) ++ resetCode ++ [LF])] ++ tr).
      split; [exact Hrest|]. split; [|split].
      * rewrite Hout', Hout. now rewrite <- app_assoc.
      * unfold shape in *. rewrite map_app, Hsh. reflexivity.
      * unfold prefixesSatisfy in *. apply Forall_app. split; [|exact Hsat].
        repeat constructor. exact Hwf.
Qed.

End CommandLines.

Lemma logCommand_lines_witness :
  length (commandLines (lit "make" ++ [LF] ++ lit "make test"))
  = S (countLF (lit "make" ++ [LF] ++ lit "make test")) /\
  (levelGt (level infoLogger) LogLevelNotice = true ->
   logCommand (fixedEnv defaultSize true) infoLogger
     (lit "make" ++ [LF] ++ lit "make test") emptyWorld
   = Some (tt, emptyWorld)) /\
  (levelGt (level infoLogger) LogLevelNotice = false ->
   exists w' tr,
     logCommand (fixedEnv defaultSize true) infoLogger
       (lit "make" ++ [LF] ++ lit "make test") emptyWorld = Some (tt, w') /\
     stdout w' = stdout emptyWorld ++ tr /\
     shape tr
     = flat_map lineShape (commandLines (lit "make" ++ [LF] ++ lit "make test")) /\
     prefixesSatisfy
       (wellFormedPrefix (fixedEnv defaultSize true) infoLogger LogLevelNotice)
       tr).
Proof.
  apply (logCommand_lines (fixedEnv defaultSize true) infoLogger).
  intro t. simpl. lia.
Defined.

(** ** Options of Exec *)

Lemma gatherOptions_snoc (options : list ExecOption) (option : ExecOption) :
  gatherOptions (options ++ [option]) = option (gatherOptions options).
Proof. unfold gatherOptions. now rewrite fold_left_app. Qed.

Lemma runHooks_snoc (hooks : list hook) (h : hook) (cmd : Cmd) :
  runHooks (hooks ++ [h]) cmd = h (runHooks hooks cmd).
Proof. unfold runHooks. now rewrite fold_left_app. Qed.

(** A working directory given as the last option is the directory of the
    command that is started, whatever the options before it set up. *)
Theorem working_dir_last (options : list ExecOption) (dir command : bytes) :
  Dir (prepare (options ++ [ExecWorkingDir dir]) command) = dir.
Proof.
  unfold prepare. rewrite gatherOptions_snoc.
  cbn [ExecWorkingDir afterCreate create]. now rewrite runHooks_snoc.
Qed.

(** A constructor given as the last option builds the command; [Exec] still
    attaches its three streams to the pseudo-terminal, whatever the
    constructor set, gives it a session of its own only when the constructor
    set no attributes, and then runs the hooks the earlier options
    registered. *)
Theorem create_last (options : list ExecOption) (f : bytes -> Cmd)
    (command : bytes) :
  let cmd := attach (f command) in
  prepare (options ++ [ExecCreate f]) command
    = runHooks (afterCreate (gatherOptions options)) cmd /\
  Stdin cmd = Tty /\ Stdout cmd = Tty /\ Stderr cmd = Tty /\
  Attr cmd = Some (match Attr (f command) with
                   | Some a => a
                   | None => {| Setsid := true; Setctty := true |}
                   end).
Proof.
  cbv zeta. unfold prepare. rewrite gatherOptions_snoc.
  cbn [ExecCreate afterCreate create]. repeat split.
  unfold attach. cbn [Attr]. now destruct (Attr (f command)).
Qed.

Lemma gatherOptions_afterRun (callbacks : list hook) (opts : execOptions) :
  fold_left (fun o option => option o) (map ExecAfterRunHook callbacks) opts
  = {| create := create opts;
       afterCreate := afterCreate opts;
       afterRun := afterRun opts ++ callbacks |}.
Proof.
  revert opts. induction callbacks as [|cb rest IH]; intro opts.
  - simpl. rewrite app_nil_r. now destruct opts.
  - cbn [map fold_left]. rewrite IH.
    cbn [ExecAfterRunHook create afterCreate afterRun].
    now rewrite <- app_assoc.
Qed.

(** Hooks registered to run after the start have no part in the command
    that is started: with such options alone it is the shell command, in a
    session of its own, on the pseudo-terminal; and the hooks are kept in
    the order they were given. *)
Theorem after_run_hooks_inert (callbacks : list hook) (command : bytes) :
  prepare (map ExecAfterRunHook callbacks) command
    = {| Path := lit "/bin/sh";
         Args := [lit "/bin/sh"; lit "-c"; command];
         Dir := [];
         Attr := Some {| Setsid := true; Setctty := true |};
         Stdin := Tty; Stdout := Tty; Stderr := Tty |} /\
  afterRun (gatherOptions (map ExecAfterRunHook callbacks)) = callbacks.
Proof.
  unfold prepare, gatherOptions. rewrite gatherOptions_afterRun.
  split; reflexivity.
Qed.

(** ** The writer over any stream *)

Lemma upToLastVisible_app (a b : bytes) :
  upToLastVisible (a ++ b)
  = if hasVisible b then a ++ upToLastVisible b else upToLastVisible a.
Proof.
  induction a as [|x a IH].
  - simpl. destruct (hasVisible b) eqn:Hb; [reflexivity|].
    now destruct (no_visible_trailing b Hb).
  - cbn [app upToLastVisible]. rewrite hasVisible_app, IH.
    destruct (hasVisible b); [now rewrite orb_true_r|].
    now rewrite orb_false_r.
Qed.

Lemma trailingBreaks_app (a b : bytes) :
  trailingBreaks (a ++ b)
  = if hasVisible b then trailingBreaks b else trailingBreaks a ++ b.
Proof.
  induction a as [|x a IH].
  - simpl. destruct (hasVisible b) eqn:Hb; [reflexivity|].
    now destruct (no_visible_trailing b Hb).
  - cbn [app trailingBreaks]. rewrite hasVisible_app, IH.
    destruct (hasVisible b); [now rewrite orb_true_r|].
    rewrite orb_false_r.
    destruct (hasVisible a); [reflexivity|].
    destruct (isNewline x); reflexivity.
Qed.

Lemma stateAfter_app (st : scanState) (a b : bytes) :
  stateAfter (stateAfter st a) b = stateAfter st (a ++ b).
Proof.
  unfold stateAfter. cbn [drawPrefix newline].
  rewrite hasVisible_app, trailingBreaks_app.
  destruct (hasVisible a), (hasVisible b); cbn [orb negb andb];
    rewrite ?andb_false_r, ?andb_true_r, ?app_assoc; reflexivity.
Qed.

Lemma byteShape_split (t : bytes) :
  flat_map byteShape t
  = flat_map byteShape (upToLastVisible t)
      ++ flat_map breakShape (trailingBreaks t).
Proof.
  rewrite <- (byteShape_breaks _ (trailing_all_breaks t)).
  rewrite <- flat_map_app. now rewrite body_trailing.
Qed.

Lemma textShape_app (st : scanState) (a b : bytes) :
  textShape (drawPrefix st) (newline st) (a ++ b)
  = textShape (drawPrefix st) (newline st) a
      ++ textShape (drawPrefix (stateAfter st a)) (newline (stateAfter st a)) b.
Proof.
  unfold textShape, stateAfter. cbn [drawPrefix newline].
  rewrite hasVisible_app, upToLastVisible_app.
  destruct (hasVisible a) eqn:Ha, (hasVisible b) eqn:Hb;
    cbn [orb negb andb app]; rewrite ?andb_false_r, ?andb_true_r, ?app_nil_r;
    try reflexivity.
  - rewrite flat_map_app, (byteShape_split a). cbn [app].
    rewrite <- !app_assoc. reflexivity.
  - rewrite !flat_map_app.
    rewrite (byteShape_breaks _ (no_visible_all_breaks a Ha)).
    rewrite <- !app_assoc. reflexivity.
Qed.

Lemma dataBytes_textShape (st : scanState) (t : bytes) :
  dataBytes (textShape (drawPrefix st) (newline st) t)
    ++ newline (stateAfter st t)
  = newline st ++ t.
Proof.
  unfold textShape, stateAfter. cbn [newline].
  destruct (hasVisible t); [|reflexivity].
  rewrite !dataBytes_app, dataBytes_breakShape, dataBytes_byteShape.
  assert (dataBytes (if drawPrefix st then [WritePrefix []] else []) = [])
    as -> by now destruct (drawPrefix st).
  cbn [app]. rewrite <- app_assoc. now rewrite body_trailing.
Qed.

Lemma noPrintf_app (a b : list event) :
  noPrintf (a ++ b) <-> noPrintf a /\ noPrintf b.
Proof. apply Forall_app. Qed.

Lemma noPrintf_byteShape (t : bytes) : noPrintf (flat_map byteShape t).
Proof.
  induction t as [|b r IH]; [constructor|]. cbn [flat_map].
  apply noPrintf_app. split; [|exact IH].
  unfold byteShape, breakShape. destruct (isNewline b); repeat constructor.
Qed.

Lemma noPrintf_breakShape (t : bytes) : noPrintf (flat_map breakShape t).
Proof.
  induction t as [|b r IH]; [constructor|]. cbn [flat_map].
  apply noPrintf_app. split; [repeat constructor|exact IH].
Qed.

Lemma noPrintf_textShape (d : bool) (nl t : bytes) : noPrintf (textShape d nl t).
Proof.
  unfold textShape. destruct (hasVisible t); [|constructor].
  apply noPrintf_app. split; [destruct d; repeat constructor|].
  apply noPrintf_app. split; [apply noPrintf_breakShape|apply noPrintf_byteShape].
Qed.

Lemma noPrintf_shape (tr : list event) : noPrintf (shape tr) -> noPrintf tr.
Proof.
  unfold noPrintf, shape. rewrite Forall_map.
  apply Forall_impl. intros e. now destruct e.
Qed.

Lemma countPrefixes_textShape (t : bytes) :
  countPrefixes (textShape true [] t)
  = if hasVisible t then S (countBreaks (upToLastVisible t)) else 0%nat.
Proof.
  unfold textShape. destruct (hasVisible t); [|reflexivity].
  cbn [flat_map app].
  change (WritePrefix [] :: ?x) with ([WritePrefix []] ++ x).
  now rewrite countPrefixes_app, countPrefixes_byteShape.
Qed.

Lemma stateAfter_breaks (st : scanState) (t : bytes) :
  Forall (fun b => isNewline b = true) (newline st) ->
  Forall (fun b => isNewline b = true) (newline (stateAfter st t)).
Proof.
  intro H. unfold stateAfter. cbn [newline].
  destruct (hasVisible t) eqn:Ht; [apply trailing_all_breaks|].
  apply Forall_app. split; [exact H|now apply no_visible_all_breaks].
Qed.

Section AnyStream.

Variable E : env.
Variables (l : Logger) (lv : LogLevel).
Variable Q : bytes -> Prop.
Hypothesis prefix_ok : forall w, exists p w1,
  getPrefix E l lv w = Some (p, w1) /\ stdout w1 = stdout w /\ Q p.

Lemma intercept_total (seg : csi.Segment) (w : world) :
  exists t w1,
    intercept E l lv seg w = Some (t, w1) /\ stdout w1 = stdout w /\
    writtenFor E l lv seg t.
Proof.
  assert (H : exists t w1,
             intercept E l lv seg w = Some (t, w1) /\ stdout w1 = stdout w).
  { destruct seg as [t|cs]; cbn [intercept]; [now exists t, w|].
    destruct (csi.IntParams cs) as [[|p [|q ps]]|];
      try (now exists (csi.String cs), w).
    destruct (Byte.eqb (csi.Final cs) "G").
    - eexists; exists (tick w). split; reflexivity.
    - destruct (Byte.eqb (csi.Final cs) "K"); [|now exists (csi.String cs), w].
      destruct ((p =? 1) || (p =? 2)); [|now exists (csi.String cs), w].
      destruct (prefix_ok w) as (pre & w1 & Hp & Hs & _).
      rewrite (bind_some _ _ _ _ _ Hp).
      eexists; exists w1. split; [reflexivity|exact Hs]. }
  destruct H as (t & w1 & Hi & Hs). exists t, w1.
  split; [exact Hi|]. split; [exact Hs|].
  destruct seg as [x|cs]; cbn [writtenFor].
  - cbn [intercept] in Hi. unfold ret in Hi. now injection Hi as <- _.
  - now exists w, w1.
Qed.

(** The writer over a stream of segments: it is where the text loop would
    be after the concatenation of what the segments stand for. *)
Lemma scan_segments (segs : list csi.Segment) (st : scanState) (w : world) :
  exists texts w' tr,
    scanFrom E l lv st (map csi.Seg segs) w
      = Some (Reading (stateAfter st (concat texts)), w') /\
    stdout w' = stdout w ++ tr /\
    shape tr = textShape (drawPrefix st) (newline st) (concat texts) /\
    prefixesSatisfy Q tr /\
    Forall2 (writtenFor E l lv) segs texts.
Proof.
  revert st w. induction segs as [|seg segs IH]; intros st w.
  - exists [], w, []. cbn [map scanFrom concat ret]. rewrite app_nil_r.
    unfold stateAfter, textShape. cbn [hasVisible existsb negb].
    rewrite andb_true_r, app_nil_r. destruct st.
    repeat split; constructor.
  - destruct (intercept_total seg w) as (t & w1 & Hi & Hs1 & Hw).
    destruct (emitText_trace E l lv Q prefix_ok t st w1)
      as (w2 & tr2 & Hrun & Hout2 & Hsh2 & Hsat2).
    fold (stateAfter st t) in Hrun.
    fold (textShape (drawPrefix st) (newline st) t) in Hsh2.
    destruct (IH (stateAfter st t) w2)
      as (texts & w' & tr & Hscan & Hout & Hsh & Hsat & Hall).
    assert (Hp : processSegment E l lv st seg w = Some (stateAfter st t, w2))
      by (unfold processSegment; now rewrite (bind_some _ _ _ _ _ Hi)).
    exists (t :: texts), w', (tr2 ++ tr).
    cbn [map scanFrom concat]. rewrite (bind_some _ _ _ _ _ Hp).
    rewrite <- stateAfter_app.
    split; [exact Hscan|]. split; [|split; [|split]].
    + rewrite Hout, Hout2, Hs1. now rewrite app_assoc.
    + unfold shape in *. rewrite map_app, Hsh2, Hsh.
      symmetry. apply textShape_app.
    + unfold prefixesSatisfy in *. apply Forall_app. now split.
    + now constructor.
Qed.

Lemma scan_segments_clean (segs : list csi.Segment) (e : csi.ReadError)
    (w : world) :
  cleanEnd e ->
  exists texts w' tr,
    writerScanner E l lv (map csi.Seg segs ++ [csi.Err e]) w
      = Some (Exited, w') /\
    stdout w' = stdout w ++ tr /\
    shape tr = textShape true [] (concat texts)
                 ++ [WriteData (newline (stateAfter initialScan (concat texts)))] /\
    prefixesSatisfy Q tr /\
    Forall2 (writtenFor E l lv) segs texts.
Proof.
  intro He.
  destruct (scan_segments segs initialScan w)
    as (texts & w1 & tr & Hscan & Hout & Hsh & Hsat & Hall).
  exists texts,
    {| loads := loads w1;
       stdout := stdout w1
         ++ [WriteData (newline (stateAfter initialScan (concat texts)))] |},
    (tr ++ [WriteData (newline (stateAfter initialScan (concat texts)))]).
  split; [|split; [|split; [|split]]].
  - unfold writerScanner. rewrite scanFrom_segments, Hscan.
    destruct He; subst e; reflexivity.
  - cbn [stdout]. rewrite Hout. now rewrite app_assoc.
  - unfold shape in *. rewrite map_app, Hsh. reflexivity.
  - unfold prefixesSatisfy in *. apply Forall_app. split; [exact Hsat|].
    repeat constructor.
  - exact Hall.
Qed.

End AnyStream.

Lemma trailing_of_initial (t : bytes) :
  newline (stateAfter initialScan t) = trailingBreaks t.
Proof.
  unfold stateAfter, initialScan. cbn [newline app].
  destruct (hasVisible t) eqn:Ht; [reflexivity|].
  now destruct (no_visible_trailing t Ht).
Qed.

Lemma shape_nil (tr : list event) : shape tr = [] <-> tr = [].
Proof.
  unfold shape. split; [apply map_eq_nil|]. now intros ->.
Qed.

Lemma textShape_nil (nl t : bytes) :
  textShape true nl t = [] <-> hasVisible t = false.
Proof.
  unfold textShape. destruct (hasVisible t); split; try easy.
Qed.

(** How a text is cut into segments does not matter: two streams of text
    segments with the same bytes give the same output and leave the writer
    in the same state, whatever follows. *)
Theorem text_chunking_irrelevant (E : env) (l : Logger) (lv : LogLevel)
    (chunks1 chunks2 : list bytes) (rest : list csi.ReadResult) (w : world) :
  concat chunks1 = concat chunks2 ->
  writerScanner E l lv (textReads chunks1 ++ rest) w
  = writerScanner E l lv (textReads chunks2 ++ rest) w.
Proof.
  intro H. unfold writerScanner. rewrite !scanFrom_text. now rewrite H.
Qed.

Lemma text_chunking_irrelevant_witness :
  writerScanner (fixedEnv defaultSize true) infoLogger LogLevelInfo
    (textReads [lit "ab"; [LF] ++ lit "c"] ++ [csi.Err csi.EOF]) emptyWorld
  = writerScanner (fixedEnv defaultSize true) infoLogger LogLevelInfo
      (textReads [lit "a"; lit "b" ++ [LF]; lit "c"] ++ [csi.Err csi.EOF])
      emptyWorld.
Proof. apply text_chunking_irrelevant. reflexivity. Defined.

Section AnyStreamProperties.

Variable E : env.
Variables (l : Logger) (lv : LogLevel).
Hypothesis margin_positive : forall t, 1 <= margin (sizeAt E t).

(** Over any stream that ends cleanly, at any level, the writer passes on
    every byte of what the segments stand for, in order and exactly once,
    and prints no log line: the data written is the concatenation of the
    texts, a text segment standing for its own bytes. *)
Theorem writer_keeps_every_byte (segs : list csi.Segment)
    (e : csi.ReadError) (w : world) :
  cleanEnd e ->
  exists texts w' tr,
    writerScanner E l lv (map csi.Seg segs ++ [csi.Err e]) w
      = Some (Exited, w') /\
    stdout w' = stdout w ++ tr /\
    dataBytes tr = concat texts /\
    noPrintf tr /\
    Forall2 (writtenFor E l lv) segs texts.
Proof.
  intro He.
  destruct (scan_segments_clean E l lv _ (prefix_total E margin_positive l lv)
              segs e w He) as (texts & w' & tr & Hrun & Hout & Hsh & _ & Hall).
  exists texts, w', tr. split; [exact Hrun|]. split; [exact Hout|].
  split; [|split; [|exact Hall]].
  - rewrite <- dataBytes_erase, Hsh, dataBytes_app.
    cbn [dataBytes flat_map]. rewrite app_nil_r.
    change (flat_map _ (textShape true [] (concat texts)))
      with (dataBytes (textShape (drawPrefix initialScan)
                         (newline initialScan) (concat texts))).
    apply (dataBytes_textShape initialScan).
  - apply noPrintf_shape. rewrite Hsh. apply noPrintf_app.
    split; [apply noPrintf_textShape|repeat constructor].
Qed.

(** Where the prefixes go in any stream that ends cleanly, control
    sequences included: with [T] the concatenation of what the segments
    stand for, the trace is a prefix, then [T] up to its last visible byte
    with a prefix after every line-break byte, then the line breaks that
    trail [T], written bare; if [T] has no visible byte no prefix is
    written. *)
Theorem writer_prefix_placement (segs : list csi.Segment)
    (e : csi.ReadError) (w : world) :
  cleanEnd e ->
  exists texts w' tr,
    writerScanner E l lv (map csi.Seg segs ++ [csi.Err e]) w
      = Some (Exited, w') /\
    stdout w' = stdout w ++ tr /\
    Forall2 (writtenFor E l lv) segs texts /\
    shape tr = textShape true [] (concat texts)
                 ++ [WriteData (trailingBreaks (concat texts))] /\
    countPrefixes tr
    = (if hasVisible (concat texts)
       then S (countBreaks (upToLastVisible (concat texts)))
       else 0%nat).
Proof.
  intro He.
  destruct (scan_segments_clean E l lv _ (prefix_total E margin_positive l lv)
              segs e w He) as (texts & w' & tr & Hrun & Hout & Hsh & _ & Hall).
  rewrite trailing_of_initial in Hsh.
  exists texts, w', tr. split; [exact Hrun|]. split; [exact Hout|].
  split; [exact Hall|]. split; [exact Hsh|].
  rewrite <- countPrefixes_shape, Hsh, countPrefixes_app.
  rewrite countPrefixes_textShape.
  change (countPrefixes [WriteData (trailingBreaks (concat texts))]) with 0%nat.
  apply Nat.add_0_r.
Qed.

(** What the writer keeps while it runs: the buffer holds line-break bytes
    only; the draw-prefix flag is set exactly as long as nothing has been
    written; and the data written, followed by the buffer, is what has been
    read. *)
Theorem writer_state_invariant (segs : list csi.Segment) (w : world) :
  exists texts st' w' tr,
    writerScanner E l lv (map csi.Seg segs) w = Some (Reading st', w') /\
    stdout w' = stdout w ++ tr /\
    Forall2 (writtenFor E l lv) segs texts /\
    Forall (fun b => isNewline b = true) (newline st') /\
    (drawPrefix st' = true <-> tr = []) /\
    dataBytes tr ++ newline st' = concat texts.
Proof.
  destruct (scan_segments E l lv _ (prefix_total E margin_positive l lv)
              segs initialScan w) as (texts & w' & tr & Hrun & Hout & Hsh & _ & Hall).
  exists texts, (stateAfter initialScan (concat texts)), w', tr.
  split; [exact Hrun|]. split; [exact Hout|]. split; [exact Hall|].
  split; [|split].
  - apply stateAfter_breaks. constructor.
  - rewrite <- shape_nil, Hsh. cbn [initialScan drawPrefix newline].
    rewrite textShape_nil. unfold stateAfter. cbn [drawPrefix].
    destruct (hasVisible (concat texts)); simpl; split; easy.
  - rewrite <- dataBytes_erase, Hsh.
    apply (dataBytes_textShape initialScan).
Qed.

(** Above the threshold every prefix the writer draws is a whole one: the
    scope colour, the label of margin width for the size of some load,
    never empty, the reset code, the separator and the colour of the
    writer's level. *)
Theorem writer_prefixes_wellformed (segs : list csi.Segment) (w : world) :
  levelGt (level l) lv = false ->
  exists st' w' tr,
    writerScanner E l lv (map csi.Seg segs) w = Some (Reading st', w') /\
    stdout w' = stdout w ++ tr /\
    prefixesSatisfy (wellFormedPrefix E l lv) tr.
Proof.
  intro Hlv.
  assert (Hpre : forall w0, exists p w1,
             getPrefix E l lv w0 = Some (p, w1) /\ stdout w1 = stdout w0 /\
             wellFormedPrefix E l lv p).
  { intro w0.
    destruct (getPrefix_wellFormed E l lv w0 (margin_positive _) Hlv)
      as (p & Hp & Hwf).
    now exists p, (tick w0). }
  destruct (scan_segments E l lv _ Hpre segs initialScan w)
    as (texts & w' & tr & Hrun & Hout & _ & Hsat & _).
  now exists (stateAfter initialScan (concat texts)), w', tr.
Qed.

End AnyStreamProperties.

Lemma writer_keeps_every_byte_witness :
  exists texts w' tr,
    writerScanner (fixedEnv defaultSize true) infoLogger LogLevelInfo
      (map csi.Seg [csi.Text (lit "a" ++ [LF]); csi.Control (eraseLine 2);
                    csi.Text (lit "b")] ++ [csi.Err csi.EOF]) emptyWorld
      = Some (Exited, w') /\
    stdout w' = stdout emptyWorld ++ tr /\
    dataBytes tr = concat texts /\
    noPrintf tr /\
    Forall2 (writtenFor (fixedEnv defaultSize true) infoLogger LogLevelInfo)
      [csi.Text (lit "a" ++ [LF]); csi.Control (eraseLine 2);
       csi.Text (lit "b")] texts.
Proof.
  apply (writer_keeps_every_byte (fixedEnv defaultSize true)).
  - intro t. simpl. lia.
  - left. reflexivity.
Defined.

Lemma writer_prefix_placement_witness :
  exists texts w' tr,
    writerScanner (fixedEnv defaultSize true) infoLogger LogLevelInfo
      (map csi.Seg [csi.Text (lit "a" ++ [LF]); csi.Control boldRed;
                    csi.Text (lit "b" ++ [LF])] ++ [csi.Err csi.EOF])
      emptyWorld = Some (Exited, w') /\
    stdout w' = stdout emptyWorld ++ tr /\
    Forall2 (writtenFor (fixedEnv defaultSize true) infoLogger LogLevelInfo)
      [csi.Text (lit "a" ++ [LF]); csi.Control boldRed;
       csi.Text (lit "b" ++ [LF])] texts /\
    shape tr = textShape true [] (concat texts)
                 ++ [WriteData (trailingBreaks (concat texts))] /\
    countPrefixes tr
    = (if hasVisible (concat texts)
       then S (countBreaks (upToLastVisible (concat texts)))
       else 0%nat).
Proof.
  apply (writer_prefix_placement (fixedEnv defaultSize true)).
  - intro t. simpl. lia.
  - left. reflexivity.
Defined.

Lemma writer_state_invariant_witness :
  exists texts st' w' tr,
    writerScanner (fixedEnv defaultSize true) infoLogger LogLevelInfo
      (map csi.Seg [csi.Text (lit "a" ++ [CR; LF])]) emptyWorld
      = Some (Reading st', w') /\
    stdout w' = stdout emptyWorld ++ tr /\
    Forall2 (writtenFor (fixedEnv defaultSize true) infoLogger LogLevelInfo)
      [csi.Text (lit "a" ++ [CR; LF])] texts /\
    Forall (fun b => isNewline b = true) (newline st') /\
    (drawPrefix st' = true <-> tr = []) /\
    dataBytes tr ++ newline st' = concat texts.
Proof.
  apply (writer_state_invariant (fixedEnv defaultSize true)).
  intro t. simpl. lia.
Defined.

Lemma writer_prefixes_wellformed_witness :
  exists st' w' tr,
    writerScanner (fixedEnv defaultSize true) infoLogger LogLevelWarn
      (map csi.Seg [csi.Text (lit "a" ++ [LF] ++ lit "b")]) emptyWorld
      = Some (Reading st', w') /\
    stdout w' = stdout emptyWorld ++ tr /\
    prefixesSatisfy
      (wellFormedPrefix (fixedEnv defaultSize true) infoLogger LogLevelWarn) tr.
Proof.
  apply (writer_prefixes_wellformed (fixedEnv defaultSize true)).
  - intro t. simpl. lia.
  - reflexivity.
Defined.
